(** * openfaas-cloud: router, llb state options and the contenthash cache

    Three parts of the repository are embedded here.

    - [llb]: the [EnvList] of [KeyValue] pairs with [AddOrReplace],
      [Delete], [Get] and [Index].  Go slices share backing arrays, so the
      lists live in an explicit heap of arrays and every operation is a
      heap transformer.
    - [router]: the reverse-proxy handler built by [makeHandler].
    - [contenthash]: the checksum cache that the tests of the package
      exercise, together with the helpers of the test file that build change
      streams, write them to a mount and feed them to [HandleChange]. *)

From Stdlib Require Import ZArith Ascii String List Lia.
From stdpp Require Import base decidable option list sorting gmap strings pretty fin_maps.

#[global] Set Warnings "-register-all".

Local Open Scope string_scope.
Local Open Scope list_scope.

(** ** Package llb: environment lists *)

Module llb.

Local Open Scope Z_scope.

(** [type KeyValue struct { key string; value string }] *)
Record KeyValue := mkKV { key : string; value : string }.

(** The zero value that fills the unused capacity of a fresh array. *)
Definition zeroKV : KeyValue := mkKV "" "".

(** A Go slice header: the backing array (none for the nil slice), the
    offset of the first element, the length and the capacity. *)
Record Slice := mkSlice {
  sarr : option nat;
  soff : nat;
  slen : nat;
  scap : nat
}.

(** [[]KeyValue(nil)] *)
Definition nilSlice : Slice := mkSlice None 0 0 0.

(** The heap of backing arrays.  [EnvList] is [[]KeyValue]. *)
Abbreviation Heap := (gmap nat (list KeyValue)).

(** The elements a slice denotes in a heap. *)
Definition read (h : Heap) (s : Slice) : list KeyValue :=
  match sarr s with
  | None => []
  | Some a => take (slen s) (drop (soff s) (default [] (h !! a)))
  end.

(** A slice is well formed when its window lies inside its array and the
    capacity reaches the end of the array. *)
Definition wf (h : Heap) (s : Slice) : Prop :=
  match sarr s with
  | None => slen s = 0%nat ∧ scap s = 0%nat
  | Some a =>
      ∃ l, h !! a = Some l ∧
           (soff s + scap s)%nat = length l ∧ (slen s ≤ scap s)%nat
  end.

Section slices.

(** How much room beyond the needed length the runtime gives a grown slice
    is a decision of the Go runtime; [grow oldcap needed] is that slack. *)
Variable grow : nat → nat → nat.

(** [append(s, xs...)]: in place when the capacity suffices, otherwise into
    a freshly allocated array.  The arguments are evaluated before the copy,
    which has memmove semantics, so [xs] is a value. *)
Definition append (h : Heap) (s : Slice) (xs : list KeyValue) : Heap * Slice :=
  let n := (slen s + length xs)%nat in
  if decide (n ≤ scap s)%nat then
    match sarr s with
    | Some a =>
        (alter (λ l, take (soff s + slen s) l ++ xs ++ drop (soff s + n) l) a h,
         mkSlice (Some a) (soff s) n (scap s))
    | None => (h, s)
    end
  else
    let a := fresh (dom h) in
    let c := (n + grow (scap s) n)%nat in
    (<[a := read h s ++ xs ++ replicate (c - n) zeroKV]> h,
     mkSlice (Some a) 0 n c).

(** [s[lo:hi]]; [None] is the run-time panic for indices out of range. *)
Definition reslice (s : Slice) (lo hi : Z) : option Slice :=
  if decide (0 ≤ lo ∧ lo ≤ hi ∧ hi ≤ Z.of_nat (scap s)) then
    Some (mkSlice (sarr s) (soff s + Z.to_nat lo) (Z.to_nat (hi - lo))
                  (scap s - Z.to_nat lo))
  else None.

(** The loop of [Index] over the elements, starting at index [i]. *)
Fixpoint indexFrom (i : Z) (l : list KeyValue) (k : string) : Z * bool :=
  match l with
  | [] => (-1, false)
  | kv :: r => if decide (key kv = k) then (i, true) else indexFrom (i + 1) r k
  end.

(** [func (e EnvList) Index(k string) (int, bool)] *)
Definition Index (h : Heap) (e : Slice) (k : string) : Z * bool :=
  indexFrom 0 (read h e) k.

(** [func (e EnvList) Get(k string) (string, bool)]; [None] would be an
    index panic. *)
Definition Get (h : Heap) (e : Slice) (k : string) : option (string * bool) :=
  match Index h e k with
  | (index, true) =>
      if decide (0 ≤ index) then
        kv ← read h e !! Z.to_nat index; Some (value kv, true)
      else None
  | (_, false) => Some ("", false)
  end.

(** [func (e EnvList) Delete(k string) EnvList] *)
Definition Delete (h : Heap) (e : Slice) (k : string) : option (Heap * Slice) :=
  let '(h1, e1) := append h nilSlice (read h e) in
  match Index h1 e1 k with
  | (i, true) =>
      a ← reslice e1 0 i;
      b ← reslice e1 (i + 1) (Z.of_nat (slen e1));
      Some (append h1 a (read h1 b))
  | (_, false) => Some (h1, e1)
  end.

(** [func (e EnvList) AddOrReplace(k, v string) EnvList] *)
Definition AddOrReplace (h : Heap) (e : Slice) (k v : string)
  : option (Heap * Slice) :=
  '(h1, e1) ← Delete h e k;
  Some (append h1 e1 [mkKV k v]).

(** [func (e EnvList) ToArray() []string] *)
Definition ToArray (h : Heap) (e : Slice) : list string :=
  map (λ kv, key kv +:+ "=" +:+ value kv) (read h e).

End slices.

(** How a string of [ToArray] is read back, as a process reads an entry
    of its environment: at the first separator; [None] when it holds none. *)
Fixpoint splitAt (sep : ascii) (s : string) : option (string * string) :=
  match s with
  | EmptyString => None
  | String c s' =>
      if decide (c = sep) then Some (EmptyString, s')
      else (λ '(a, b), (String c a, b)) <$> splitAt sep s'
  end.

Definition splitEnv (s : string) : option (string * string) := splitAt "=" s.

(** What [Delete] does to the elements: the first entry for [k] goes. *)
Fixpoint removeFirst (k : string) (l : list KeyValue) : list KeyValue :=
  match l with
  | [] => []
  | kv :: r => if decide (key kv = k) then r else kv :: removeFirst k r
  end.

(** The number of entries for [k]. *)
Definition occurrences (k : string) (l : list KeyValue) : nat :=
  length (filter (λ kv, key kv = k) l).

(** A runtime that never gives slack, and two heaps to run the operations
    on: one list with distinct keys, one with two entries for one key. *)
Definition exactFit : nat → nat → nat := λ _ _, 0%nat.

Definition pathHeap : Heap := {[ 0%nat := [mkKV "PATH" "/bin"; mkKV "HOME" "/root"] ]}.
Definition pathList : Slice := mkSlice (Some 0%nat) 0 2 2.

Definition dupHeap : Heap := {[ 0%nat := [mkKV "k" "1"; mkKV "k" "2"] ]}.
Definition dupList : Slice := mkSlice (Some 0%nat) 0 2 2.

(** The first call of [AddOrReplace] on [PATH=/bin, HOME=/root]. *)
Definition pathHeap1 : Heap :=
  match AddOrReplace exactFit pathHeap pathList "PATH" "/usr/bin" with
  | Some (h1, _) => h1
  | None => pathHeap
  end.

Definition pathList1 : Slice :=
  match AddOrReplace exactFit pathHeap pathList "PATH" "/usr/bin" with
  | Some (_, e1) => e1
  | None => pathList
  end.

End llb.
(** ** Package main of the router: the proxying handler *)

Module router.

Local Open Scope Z_scope.

(** [strings.Index(s, substr)]: the byte index of the first instance of
    [substr] in [s], or -1. *)
Fixpoint indexFrom (i : Z) (s substr : string) : Z :=
  if String.prefix substr s then i
  else match s with
       | EmptyString => -1
       | String _ s' => indexFrom (i + 1) s' substr
       end.

Definition Index (s substr : string) : Z := indexFrom 0 s substr.

(** [strings.HasPrefix(s, prefix)] *)
Definition HasPrefix (s prefix : string) : bool := String.prefix prefix s.

(** [s[lo:hi]] on a string; [None] is the run-time panic "slice bounds out
    of range". *)
Definition slice (s : string) (lo hi : Z) : option string :=
  if decide (0 ≤ lo ∧ lo ≤ hi ∧ hi ≤ Z.of_nat (String.length s)) then
    Some (String.substring (Z.to_nat lo) (Z.to_nat (hi - lo)) s)
  else None.

(** [http.Header] is [map[string][]string]. *)
Abbreviation Header := (gmap string (list string)).

(** The fields of [*http.Request] the handler reads.  A nil [Body] is
    [None]. *)
Record Request := mkRequest {
  Method : string;
  Host : string;
  RequestURI : string;
  ReqHeader : Header;
  Body : option string
}.

(** The upstream answer: [res.StatusCode], [res.Header], [res.Body]. *)
Record Response := mkResponse {
  StatusCode : Z;
  ResHeader : Header;
  ResBody : option string
}.

(** What an [http.ResponseWriter] has been told so far. *)
Record ResponseWriter := mkWriter {
  status : option Z;
  header : Header;
  written : string
}.

Definition newWriter : ResponseWriter := mkWriter None ∅ "".

(** [w.WriteHeader(code)]: the first call fixes the status, later calls
    are dropped by net/http. *)
Definition WriteHeader (code : Z) (w : ResponseWriter) : ResponseWriter :=
  match status w with
  | Some _ => w
  | None => mkWriter (Some code) (header w) (written w)
  end.

(** [w.Write(b)]: sends the status 200 first when none was sent. *)
Definition Write (b : string) (w : ResponseWriter) : ResponseWriter :=
  let w' := WriteHeader 200 w in
  mkWriter (status w') (header w') (written w' +:+ b).

Definition StatusBadRequest : Z := 400.
Definition StatusBadGateway : Z := 502.
Definition StatusServiceUnavailable : Z := 503.

(** [func copyHeaders(destination http.Header, source *http.Header)]: every
    key of the source is set in the destination to a clone of its values. *)
Definition copyHeaders (destination source : Header) : Header :=
  source ∪ destination.

(** How a call of the handler ends. *)
Inductive Panic := SliceBoundsOutOfRange | NilPointerDereference.

Inductive Outcome :=
  | Returned (w : ResponseWriter) (stdout : list string)
  | Panicked (p : Panic) (w : ResponseWriter) (stdout : list string).

Section handler.

(** The outside world of the handler: whether [http.NewRequest] accepts a
    method and a URL, and what [c.Do] answers to the outgoing request
    (method, URL, headers, body): a response or an error text. *)
Variable newRequestOk : string → string → bool.
Variable Do : string → string → Header → option string → Response + string.

(** [func makeHandler(c *http.Client, upstreamURL string)
      func(w http.ResponseWriter, r *http.Request)] *)
Definition makeHandler (upstreamURL : string)
    (w : ResponseWriter) (r : Request) : Outcome :=
  let w :=
    if decide (String.length (Host r) = 0%nat)
    then WriteHeader StatusBadRequest w else w in
  let requestURI := RequestURI r in
  match (if HasPrefix requestURI "/"
         then slice requestURI 1 (Z.of_nat (String.length requestURI))
         else Some requestURI) with
  | None => Panicked SliceBoundsOutOfRange w []
  | Some requestURI =>
    match slice (Host r) 0 (Index (Host r) ".") with
    | None => Panicked SliceBoundsOutOfRange w []
    | Some function =>
      let path := upstreamURL +:+ "function/" +:+ function +:+ "-" +:+ requestURI in
      let out := ["Proxying to:  " +:+ path] in
      if negb (newRequestOk (Method r) path)
      then Panicked NilPointerDereference w out
      else
        let reqHeader := copyHeaders ∅ (ReqHeader r) in
        match Do (Method r) path reqHeader (Body r) with
        | inr resErr =>
            let w := WriteHeader StatusServiceUnavailable w in
            let w := Write resErr w in
            Returned w (out ++ ["Upstream " +:+ path +:+ " status: "
                                 +:+ pretty StatusBadGateway])
        | inl res =>
            let w := mkWriter (status w) (copyHeaders (header w) (ResHeader res))
                              (written w) in
            let out := out ++ ["Upstream " +:+ path +:+ " status: "
                                +:+ pretty (StatusCode res)] in
            let w := WriteHeader (StatusCode res) w in
            match ResBody res with
            | Some bytesOut => Returned (Write bytesOut w) out
            | None => Returned w out
            end
        end
    end
  end.

End handler.

(** [strings.HasSuffix(s, suffix)]:
    [len(s) >= len(suffix) && s[len(s)-len(suffix):] == suffix]. *)
Definition HasSuffix (s suffix : string) : bool :=
  bool_decide (String.length suffix ≤ String.length s)%nat &&
  bool_decide (String.substring (String.length s - String.length suffix)
                                (String.length suffix) s = suffix).

(** What [main] hands to [http.Server]: the address, the upstream URL of
    the handler registered for every path, the two timeouts in nanoseconds
    and the bound on the header bytes. *)
Record Server := mkServer {
  Addr : string;
  handlerUpstream : string;
  ReadTimeout : Z;
  WriteTimeout : Z;
  MaxHeaderBytes : Z
}.

(** How [main] goes on: [log.Panicln] panics with its message and a new
    line, [s.ListenAndServe()] serves until it fails. *)
Inductive Start :=
  | LogPanic (msg : string)
  | ListenAndServe (s : Server).

Definition Second : Z := 1000000000.

(** [func main()], with [os.LookupEnv] for its environment. *)
Definition main (LookupEnv : string → option string) : Start :=
  let port :=
    match LookupEnv "port" with
    | Some portVal =>
        if decide (0 < String.length portVal)%nat then portVal else "8080"
    | None => "8080"
    end in
  let upstreamURL :=
    match LookupEnv "upstream_url" with
    | Some up =>
        if decide (0 < String.length up)%nat then
          if negb (HasSuffix up "/") then up +:+ "/" else up
        else ""
    | None => ""
    end in
  if decide (String.length upstreamURL = 0%nat) then
    LogPanic ("give an upstream_url as an env-var" +:+ String "010" "")
  else
    ListenAndServe (mkServer (":" +:+ port) upstreamURL
                             (60 * Second) (60 * Second) (Z.shiftl 1 20)).

(** The function a request is for: the bytes of the host name before its
    first dot. *)
Fixpoint firstLabel (host : string) : string :=
  match host with
  | EmptyString => EmptyString
  | String c rest =>
      if decide (c = "."%char) then EmptyString else String c (firstLabel rest)
  end.

(** A request URI without its leading slash, if it has one. *)
Definition trimSlash (uri : string) : string :=
  match uri with
  | EmptyString => EmptyString
  | String c rest => if decide (c = "/"%char) then rest else uri
  end.

(** The URL the handler asks the upstream for. *)
Definition proxyPath (upstreamURL : string) (r : Request) : string :=
  upstreamURL +:+ "function/" +:+ firstLabel (Host r) +:+ "-"
              +:+ trimSlash (RequestURI r).

(** A host name has no dot when none of its bytes is ['.']. *)
Definition dotless (host : string) : Prop :=
  "."%char ∉ list_ascii_of_string host.

(** A world to run the handler in: every request is well formed and the
    upstream is down. *)
Definition acceptAll : string → string → bool := λ _ _, true.
Definition upstreamDown
  : string → string → Header → option string → Response + string :=
  λ _ _ _ _, inr "connection refused".

(** An upstream that answers every request alike, an environment that
    names it without the closing slash, and a request for the function
    [hello]. *)
Definition upstreamHello
  : string → string → Header → option string → Response + string :=
  λ _ _ _ _, inl (mkResponse 200 {[ "Content-Type" := ["text/plain"] ]}
                             (Some "hello")).

Definition gatewayEnv (name : string) : option string :=
  if decide (name = "upstream_url") then Some "http://gateway:8080" else None.

Definition helloRequest : Request :=
  mkRequest "GET" "hello.example.com:8080" "/v1/run?x=1"
            {[ "Accept" := ["*/*"] ]} None.

End router.

(** ** Package contenthash: the checksum cache and its test helpers

    The package's implementation file is not among the sources: only its
    test file is.  The helpers of the test file ([change], [parseChange],
    [changeStream], [emit], [withHash], [writeChanges]) are embedded from
    their code; the cache itself ([newCacheContext], [Checksum],
    [HandleChange], the digest algorithm, persistence) is modelled from the
    specification, each such definition saying so. *)

Module contenthash.

(** [digest.Digest] is a Go string; a path is its list of components. *)
Abbreviation Digest := string.
Abbreviation Path := (list string).

(** *** The digest algorithm *)

(** Modelled from the spec: the "fixed cryptographic hash function" and the
    two constants the specification leaves open are missing.  [sumHex] is the
    hash of a byte string in hexadecimal, [absentMarker] is what a child
    without a digest feeds to its directory's hash, [maxSymlinks] bounds the
    length of a chain of symlinks. *)
Class Algorithm := {
  sumHex : string → string;
  absentMarker : string;
  maxSymlinks : nat
}.

(** The idealisation under which different inputs have different hashes. *)
Class CollisionFree (alg : Algorithm) : Prop :=
  collision_free : ∀ x y : string, sumHex x = sumHex y → x = y.

(** [fsutil.Stat], the fields the package reads.  [Mode] is a [uint32]. *)
Record Stat := mkStat {
  Mode : Z;
  Size_ : Z;
  Linkname : string;
  ModTime : Z
}.

(** [os.ModeDir] and [os.ModeSymlink] are bits 31 and 27 of a file mode. *)
Definition ModeDir : Z := Z.shiftl 1 31.
Definition ModeSymlink : Z := Z.shiftl 1 27.

(** [st.Mode |= bits] on a [uint32]. *)
Definition orMode (st : Stat) (bits : Z) : Stat :=
  mkStat (Z.lor (Mode st) bits mod 2 ^ 32) (Size_ st) (Linkname st) (ModTime st).

(** [fi.IsDir()] and [fi.Mode()&os.ModeSymlink != 0] of a [StatInfo]. *)
Definition IsDir (st : Stat) : bool := negb (Z.land (Mode st) ModeDir =? 0)%Z.
Definition IsSymlink (st : Stat) : bool := negb (Z.land (Mode st) ModeSymlink =? 0)%Z.

(** A [hash.Hash] in use: the bytes written to it so far. *)
Record Hasher := mkHasher { absorbed : string }.

(** [io.Copy(h, strings.NewReader(data))] *)
Definition Copy (h : Hasher) (data : string) : Hasher :=
  mkHasher (absorbed h +:+ data).

Definition SHA256 : string := "sha256".

Section digests.

Context {alg : Algorithm}.

(** Modelled from the spec: [NewFromStat] is missing.  "Digest is computed
    by streaming-hashing the raw content (no size/mode salts)": the hasher
    starts empty whatever the metadata. *)
Definition NewFromStat (stat : Stat) : Hasher := mkHasher "".

(** [digest.NewDigest(alg, h)]: the algorithm tag, a colon and the hash in
    hexadecimal. *)
Definition NewDigest (tag : string) (h : Hasher) : Digest :=
  tag +:+ ":" +:+ sumHex (absorbed h).

(** Modelled from the spec: [HashFile(content stream, metadata)]. *)
Definition HashFile (content : string) (stat : Stat) : Digest :=
  NewDigest SHA256 (Copy (NewFromStat stat) content).

(** Lexicographic order on names, byte by byte. *)
Definition nameLe (a b : string) : Prop := String.leb a b = true.

#[global] Instance nameLe_dec : RelDecision nameLe.
Proof. intros a b. unfold nameLe. apply _. Defined.

Definition entryLe (a b : string * option Digest) : Prop := nameLe a.1 b.1.

#[global] Instance entryLe_dec : RelDecision entryLe.
Proof. intros a b. unfold entryLe. apply _. Defined.

(** What one child feeds to the running hash of its directory: its name,
    then its digest or the marker of an absent digest. *)
Definition feed (child : string * option Digest) : string :=
  child.1 +:+ default absentMarker child.2.

Definition feedAll (children : list (string * option Digest)) : string :=
  foldr (λ c acc, feed c +:+ acc) "" children.

(** Modelled from the spec: [HashDirectory(orderedChildren)]; the children
    are sorted by name and fed to a single running hash in that order. *)
Definition HashDirectory (children : list (string * option Digest)) : Digest :=
  NewDigest SHA256 (mkHasher (feedAll (merge_sort entryLe children))).

End digests.

(** *** Paths *)

(** [strings.Split(s, sep)] for a one-byte separator. *)
Fixpoint splitOn (sep : ascii) (s : string) : list string :=
  match s with
  | EmptyString => [EmptyString]
  | String c s' =>
      if decide (c = sep) then EmptyString :: splitOn sep s'
      else match splitOn sep s' with
           | [] => [String c EmptyString]
           | x :: r => String c x :: r
           end
  end.

(** One component of a path being cleaned: empty components and ["."] are
    dropped, [".."] steps back and stays at the root. *)
Definition cleanStep (acc : Path) (x : string) : Path :=
  if decide (x = "" ∨ x = ".") then acc
  else if decide (x = "..") then removelast acc
  else acc ++ [x].

Definition cleanInto (base : Path) (comps : list string) : Path :=
  foldl cleanStep base comps.

(** Modelled from the spec: how [Checksum] and [HandleChange] read a path
    string is missing; the path is cleaned and taken from the root, so that
    ["/"] is the root and ["d0/abc"] is [["d0"; "abc"]]. *)
Definition splitPath (p : string) : Path := cleanInto [] (splitOn "/" p).

(** The path a symlink in directory [dir] points to: an absolute target
    starts at the root of the reference, a relative one at [dir]. *)
Definition joinLink (dir : Path) (target : string) : Path :=
  cleanInto (if String.prefix "/" target then [] else dir) (splitOn "/" target).

(** [filepath.Join(mount, p)] below the mount point: [None] when the
    cleaned path would leave the mount. *)
Definition cleanStepRel (acc : option Path) (x : string) : option Path :=
  a ← acc;
  if decide (x = "" ∨ x = ".") then Some a
  else if decide (x = "..") then
    match a with [] => None | _ => Some (removelast a) end
  else Some (a ++ [x]).

Definition joinMount (p : string) : option Path :=
  foldl cleanStepRel (Some []) (splitOn "/" p).

(** *** The live filesystem of a reference *)

(** A file carries its mode and modification time besides its bytes; the
    entries of a directory are listed in the order they were created. *)
Inductive Entry :=
  | EFile (mode mtime : Z) (content : string)
  | EDir (listing : list (string * Entry))
  | ESymlink (target : string).

(** A reference: its identity, stable across restarts, and the entries of
    the root directory of the filesystem it mounts. *)
Record Ref := mkRef { ID : string; entries : list (string * Entry) }.

Definition root (ref : Ref) : Entry := EDir (entries ref).

Fixpoint lookupEntry (name : string) (es : list (string * Entry)) : option Entry :=
  match es with
  | [] => None
  | (n, e) :: r => if decide (n = name) then Some e else lookupEntry name r
  end.

Definition entryChild (name : string) (e : Entry) : option Entry :=
  match e with EDir es => lookupEntry name es | _ => None end.

(** [lstat] of a path: no symlink is followed. *)
Fixpoint entryAt (p : Path) (e : Entry) : option Entry :=
  match p with
  | [] => Some e
  | x :: r => entryChild x e ≫= entryAt r
  end.

Definition statOfFile (mode mtime : Z) (content : string) : Stat :=
  mkStat mode (Z.of_nat (String.length content)) "" mtime.

(** *** The tree node store *)

Inductive Kind := File | Directory | Symlink.

#[global] Instance Kind_eq_dec : EqDecision Kind.
Proof. solve_decision. Defined.

(** Modelled from the spec: the Node of the data model.  The parent
    back-reference is the path from the root: the tree is owned top-down. *)
Inductive Node := MkNode {
  kind : Kind;
  digest : option Digest;
  linkname : string;
  children : gmap string Node;
  scanned : bool
}.

Definition isDir (n : Node) : bool :=
  match kind n with Directory => true | _ => false end.

(** An empty directory node, not scanned and without digest. *)
Definition emptyDir : Node := MkNode Directory None "" ∅ false.

Definition nodeChild (name : string) (n : Node) : option Node :=
  if isDir n then children n !! name else None.

(** Lookup by path in the store. *)
Fixpoint nodeAt (p : Path) (n : Node) : option Node :=
  match p with
  | [] => Some n
  | x :: r => nodeChild x n ≫= nodeAt r
  end.

(** Modelled from the spec: "create or replace the Node at path" with every
    ancestor marked invalid; missing ancestors are created as directories. *)
Fixpoint insertAt (p : Path) (new : Node) (n : Node) : Node :=
  match p with
  | [] => new
  | x :: r =>
      let base := if isDir n then n else emptyDir in
      let child := default emptyDir (children base !! x) in
      MkNode Directory None "" (<[x := insertAt r new child]> (children base))
             (scanned base)
  end.

(** Modelled from the spec: "remove the Node (and its subtree) from its
    parent's children; mark the parent and all ancestors invalid".  Removing
    the root leaves an empty root. *)
Fixpoint removeAt (p : Path) (n : Node) : Node :=
  match p with
  | [] => emptyDir
  | x :: r =>
      if isDir n then
        MkNode Directory None (linkname n)
          (match r with
           | [] => delete x (children n)
           | _ => alter (removeAt r) x (children n)
           end)
          (scanned n)
      else n
  end.

(** Modelled from the spec: step 4 of the scanner, "cache the resulting
    digest on the Node, mark it scanned"; the nodes on the way are created
    as unscanned directories where the store has none. *)
Fixpoint store (p : Path) (k : Kind) (d : Digest) (n : option Node) : Node :=
  match p with
  | [] =>
      match n with
      | Some n => MkNode (kind n) (Some d) (linkname n) (children n) true
      | None => MkNode k (Some d) "" ∅ true
      end
  | x :: r =>
      let base := default emptyDir n in
      MkNode (kind base) (digest base) (linkname base)
             (<[x := store r k d (children base !! x)]> (children base))
             (scanned base)
  end.

(** Modelled from the spec: a tree loaded from durable storage "is trusted
    as already scanned/valid". *)
Fixpoint trust (n : Node) : Node :=
  MkNode (kind n) (digest n) (linkname n) (trust <$> children n) true.

(** *** What the scanner sees: the store laid over the live filesystem *)

(** A location is what the store and the filesystem have at one path. *)
Abbreviation Loc := (option Node * option Entry)%type.

(** One step down.  A cached entry that is not a directory hides what the
    filesystem has below it; otherwise a name exists when the store or the
    filesystem has it. *)
Definition step (name : string) (l : Loc) : option Loc :=
  let on := l.1 ≫= nodeChild name in
  let oe := match l.1 with
            | Some n => if isDir n then l.2 ≫= entryChild name else None
            | None => l.2 ≫= entryChild name
            end in
  match on, oe with
  | None, None => None
  | _, _ => Some (on, oe)
  end.

(** Modelled from the spec: step 1 of the scanner, "resolve path to a
    Node, failing with NotFound if any path segment does not exist in the
    live filesystem and no cached entry says otherwise". *)
Fixpoint locate (p : Path) (l : Loc) : option Loc :=
  match p with
  | [] => Some l
  | x :: r => step x l ≫= locate r
  end.

Definition entryNames (oe : option Entry) : gset string :=
  match oe with
  | Some (EDir es) => list_to_set es.*1
  | _ => ∅
  end.

(** "Iteration over a directory's children in sorted order". *)
Definition sortNames (names : gset string) : list string :=
  merge_sort nameLe (elements names).

(** What the scanner learns at a location: the kind, a digest that needs
    no recursion (a cached one, or the hash of the file's bytes), the link
    target, the names of the children. *)
Record Obs := mkObs {
  okind : Kind;
  odigest : option Digest;
  olink : string;
  onames : list string
}.

Section scanner.

Context {alg : Algorithm}.

Definition observe (l : Loc) : option Obs :=
  match l with
  | (Some n, oe) =>
      Some (mkObs (kind n)
        match kind n with
        | File =>
            match digest n, oe with
            | Some d, _ => Some d
            | None, Some (EFile mode mtime content) =>
                Some (HashFile content (statOfFile mode mtime content))
            | None, _ => None
            end
        | Directory => if scanned n then digest n else None
        | Symlink => None
        end
        (linkname n)
        (if isDir n then sortNames (dom (children n) ∪ entryNames oe) else []))
  | (None, Some (EFile mode mtime content)) =>
      Some (mkObs File (Some (HashFile content (statOfFile mode mtime content))) "" [])
  | (None, Some (EDir es)) =>
      Some (mkObs Directory None "" (sortNames (entryNames (Some (EDir es)))))
  | (None, Some (ESymlink target)) =>
      Some (mkObs Symlink None target [])
  | (None, None) => None
  end.

(** Modelled from the spec: the errors of the checksum query API. *)
Inductive Error := NotFound | IOFailure | Cancelled.

Inductive Result := OK (d : Digest) | Err (e : Error).

(** The view of a reference through a store: what is seen at each path. *)
Definition View := Path → option Obs.

(** Modelled from the spec: "resolve target (following chained symlinks,
    bounded to prevent cycles) to a File or Directory"; [None] when the
    path is absent or the chain does not end at a real entry within
    [hops] links.  The link that is followed is the one the path ends at: a
    path is located segment by segment in the node tree, and a segment in
    the middle of a path that is a symlink leads nowhere. *)
Fixpoint follow (V : View) (hops : nat) (p : Path) : option Path :=
  match V p with
  | None => None
  | Some o =>
      match okind o with
      | Symlink =>
          match hops with
          | O => None
          | S h => follow V h (joinLink (removelast p) (olink o))
          end
      | _ => Some p
      end
  end.

(** The digests of the children of a directory, in order: a child without
    digest (a broken symlink) keeps its name, any other failure is the
    directory's, and [None] is a child whose computation did not finish. *)
Fixpoint collect (rs : list (string * option Result))
  : option (list (string * option Digest) + Error) :=
  match rs with
  | [] => Some (inl [])
  | (name, r) :: rest =>
      match r with
      | None => None
      | Some (Err NotFound) =>
          match collect rest with
          | Some (inl l) => Some (inl ((name, None) :: l))
          | other => other
          end
      | Some (Err e) => Some (inr e)
      | Some (OK d) =>
          match collect rest with
          | Some (inl l) => Some (inl ((name, Some d) :: l))
          | other => other
          end
      end
  end.

(** Modelled from the spec: steps 1 to 3 of [EnsureComputed], with [rec]
    for the digests of the children.  The path is resolved through
    symlinks; a valid digest is returned at once; a file is hashed; a
    directory combines the digests of its children. *)
Definition digestStep (V : View) (rec : Path → option Result) (p : Path)
  : option Result :=
  match follow V maxSymlinks p with
  | None => Some (Err NotFound)
  | Some q =>
      match V q with
      | None => Some (Err NotFound)
      | Some o =>
          match okind o, odigest o with
          | File, Some d => Some (OK d)
          | File, None => Some (Err IOFailure)
          | Directory, Some d => Some (OK d)
          | Directory, None =>
              match collect (map (λ name, (name, rec (q ++ [name]))) (onames o)) with
              | None => None
              | Some (inr e) => Some (Err e)
              | Some (inl children) => Some (OK (HashDirectory children))
              end
          | Symlink, _ => Some (Err NotFound)
          end
      end
  end.

(** The recursion of [EnsureComputed]: [fuel] bounds its depth and [None]
    means it ran out. *)
Fixpoint digestAt (V : View) (fuel : nat) (p : Path) : option Result :=
  match fuel with
  | O => None
  | S f => digestStep V (digestAt V f) p
  end.

(** *** The cache context *)

(** Modelled from the spec: the Cache Context owns one tree node store. *)
Record CacheContext := mkCC { tree : Node }.

Definition rootLoc (cc : CacheContext) (ref : Ref) : Loc :=
  (Some (tree cc), Some (root ref)).

Definition view (cc : CacheContext) (ref : Ref) : View :=
  λ p, locate p (rootLoc cc ref) ≫= observe.

(** Modelled from the spec: [Checksum] on a cleaned path (steps 1 to 4 of
    [EnsureComputed]): the digest is computed over the view and, on success,
    cached on the node the path resolves to. *)
Definition checksumAt (fuel : nat) (cc : CacheContext) (ref : Ref) (p : Path)
  : option (Result * CacheContext) :=
  let V := view cc ref in
  match digestAt V fuel p with
  | None => None
  | Some (Err e) => Some (Err e, cc)
  | Some (OK d) =>
      match follow V maxSymlinks p with
      | Some q =>
          match V q with
          | Some o => Some (OK d, mkCC (store q (okind o) d (Some (tree cc))))
          | None => Some (OK d, cc)
          end
      | None => Some (OK d, cc)
      end
  end.

(** Modelled from the spec: [cc.Checksum(ctx, ref, path)]. *)
Definition Checksum (fuel : nat) (cc : CacheContext) (ref : Ref) (p : string)
  : option (Result * CacheContext) :=
  checksumAt fuel cc ref (splitPath p).

(** The digest or error of a call, its new state apart. *)
Definition outcome (r : option (Result * CacheContext)) : option Result :=
  fst <$> r.

End scanner.

(** *** Change events *)

(** [fsutil.ChangeKind] *)
Inductive ChangeKind := ChangeKindAdd | ChangeKindModify | ChangeKindDelete.

#[global] Instance ChangeKind_eq_dec : EqDecision ChangeKind.
Proof. solve_decision. Defined.

(** An [os.FileInfo] as the package sees it: the [*fsutil.Stat] behind
    [Sys()], and the digest when the value is a [withHash]. *)
Record FileInfo := mkFileInfo { Sys : Stat; Hashed : option Digest }.

Definition kindOf (st : Stat) : Kind :=
  if IsDir st then Directory else if IsSymlink st then Symlink else File.

(** Modelled from the spec: the node of an Add or Modify event.  A
    precomputed digest is stored for a file or a symlink; a directory starts
    without digest and unscanned. *)
Definition nodeOf (fi : FileInfo) : Node :=
  match kindOf (Sys fi) with
  | Directory => emptyDir
  | Symlink => MkNode Symlink (Hashed fi) (Linkname (Sys fi)) ∅ false
  | File => MkNode File (Hashed fi) "" ∅ false
  end.

(** Modelled from the spec: [cc.HandleChange(kind, path, fi, err)]. *)
Definition HandleChange (cc : CacheContext) (k : ChangeKind) (p : string)
    (fi : FileInfo) : CacheContext :=
  match k with
  | ChangeKindDelete => mkCC (removeAt (splitPath p) (tree cc))
  | _ => mkCC (insertAt (splitPath p) (nodeOf fi) (tree cc))
  end.

(** Modelled from the spec: [newCacheContext] without persisted state. *)
Definition emptyContext : CacheContext := mkCC emptyDir.

(** *** Persistence and the manager *)

(** Modelled from the spec: the durable store, "a keyed byte-blob store
    (get/put/delete by reference identity)"; a blob is a saved digest tree. *)
Abbreviation Metadata := (gmap string Node).

(** Modelled from the spec: the save of a context's tree under the
    identity of its reference. *)
Definition save (id : string) (cc : CacheContext) (md : Metadata) : Metadata :=
  <[id := tree cc]> md.

(** Modelled from the spec: [newCacheContext(md)] loads the saved tree of
    the reference, which it then trusts, or starts from an empty root. *)
Definition newCacheContext (md : Metadata) (id : string) : CacheContext :=
  match md !! id with
  | Some t => mkCC (trust t)
  | None => emptyContext
  end.

(** Modelled from the spec: the process-wide state behind the package-level
    [Checksum]: the contexts the default manager keeps in its LRU, and the
    durable store that outlives the process. *)
Record World := mkWorld {
  lru : gmap string CacheContext;
  metadata : Metadata
}.

Definition GetCacheContext (w : World) (ref : Ref) : CacheContext :=
  match lru w !! ID ref with
  | Some cc => cc
  | None => newCacheContext (metadata w) (ID ref)
  end.

Section manager.

Context {alg : Algorithm}.

(** Modelled from the spec: the package-level [Checksum(ctx, ref, path)].
    The context of the reference is taken from the LRU or loaded; after a
    successful computation the tree is saved (the save runs in the
    background in the package; here it has completed when the call
    returns). *)
Definition ChecksumRef (fuel : nat) (w : World) (ref : Ref) (p : string)
  : option (Result * World) :=
  match Checksum fuel (GetCacheContext w ref) ref p with
  | None => None
  | Some (OK d, cc') =>
      Some (OK d, mkWorld (<[ID ref := cc']> (lru w))
                          (save (ID ref) cc' (metadata w)))
  | Some (Err e, cc') =>
      Some (Err e, mkWorld (<[ID ref := cc']> (lru w)) (metadata w))
  end.

End manager.

(** A process restart: [cm.Close()], [lru.Purge()] and a new manager over
    the same directory.  The in-memory contexts are gone, the durable store
    stays. *)
Definition restart (w : World) : World := mkWorld ∅ (metadata w).

(** *** The helpers of the test file *)

(** [type change struct { kind; path; fi; data }]; [fi] is always a
    [*fsutil.StatInfo], kept here as its [Stat]. *)
Record change := mkChange {
  ckind : ChangeKind;
  cpath : string;
  cfi : Stat;
  cdata : string
}.

(** ASCII white space, on which [strings.Fields] splits. *)
Definition isSpace (c : ascii) : bool :=
  bool_decide (c ∈ [" "; "009"; "010"; "011"; "012"; "013"]%char).

(** [strings.Fields(s)]: the maximal runs of bytes that are not white
    space; [cur] is the run being read. *)
Fixpoint fieldsFrom (cur : string) (s : string) : list string :=
  match s with
  | EmptyString => if decide (cur = "") then [] else [cur]
  | String c s' =>
      if isSpace c then
        if decide (cur = "") then fieldsFrom "" s' else cur :: fieldsFrom "" s'
      else fieldsFrom (cur +:+ String c "") s'
  end.

Definition Fields (s : string) : list string := fieldsFrom "" s.

(** [func parseChange(str string) *change]; [None] is a panic. *)
Definition parseChange (str : string) : option change :=
  match Fields str with
  | f0 :: f1 :: f2 :: rest =>
      k ← (if decide (f0 = "ADD") then Some ChangeKindAdd
           else if decide (f0 = "CHG") then Some ChangeKindModify
           else if decide (f0 = "DEL") then Some ChangeKindDelete
           else None);
      let st := mkStat 0 0 "" 0 in
      if decide (f2 = "file") then
        match rest with
        | String ">" target :: _ =>
            Some (mkChange k f1
                    (orMode (mkStat (Mode st) (Size_ st) target (ModTime st)) 420) "")
        | f3 :: _ =>
            Some (mkChange k f1
                    (orMode (mkStat (Mode st) (Z.of_nat (String.length f3))
                                    (Linkname st) (ModTime st)) 420) f3)
        | [] => Some (mkChange k f1 (orMode st 420) "")
        end
      else if decide (f2 = "dir") then
        Some (mkChange k f1 (orMode (orMode st ModeDir) 448) "")
      else if decide (f2 = "symlink") then
        match rest with
        | f3 :: _ =>
            Some (mkChange k f1
                    (orMode (mkStat (Mode (orMode st ModeSymlink)) (Size_ st) f3
                                    (ModTime st)) 511) "")
        | [] => None
        end
      else Some (mkChange k f1 st "")
  | _ => None
  end.

(** [func changeStream(dt []string) (changes []*change)] *)
Definition changeStream (dt : list string) : option (list change) :=
  mapM parseChange dt.

Section helpers.

Context {alg : Algorithm}.

(** [func emit(fn fsutil.HandleChangeFn, inp []*change) error]: [fn]
    changes a state [S] or fails; the result is the error, if any, and
    the state reached. *)
Fixpoint emit {S : Type} (fn : ChangeKind → string → FileInfo → S → string + S)
    (inp : list change) (s : S) : option string * S :=
  match inp with
  | [] => (None, s)
  | c :: rest =>
      let stat := cfi c in
      let fi :=
        match ckind c with
        | ChangeKindDelete => mkFileInfo stat None
        | _ =>
            let h := Copy (NewFromStat stat) (cdata c) in
            mkFileInfo stat (Some (NewDigest SHA256 h))
        end in
      match fn (ckind c) (cpath c) fi s with
      | inl err => (Some err, s)
      | inr s' => emit fn rest s'
      end
  end.


End helpers.

(** The system calls of [writeChanges] on the tree below the mount point.
    [setEntry] puts an entry under a name, in place if the name is there and
    at the end of the listing otherwise. *)
Fixpoint setEntry (name : string) (c : Entry) (es : list (string * Entry))
  : list (string * Entry) :=
  match es with
  | [] => [(name, c)]
  | (n, e) :: r =>
      if decide (n = name) then (name, c) :: r else (n, e) :: setEntry name c r
  end.

(** A system call at path [p]: [f] maps what is at the path to what the
    call leaves there, or fails.  The parent must be a directory.  A path
    that leads through a symlink, which the operating system would follow,
    is outside this model and fails. *)
Fixpoint fsUpdate (p : Path) (f : option Entry → option Entry) (e : Entry)
  : option Entry :=
  match p with
  | [] => None
  | x :: r =>
      match e with
      | EDir es =>
          match r with
          | [] => c ← f (lookupEntry x es); Some (EDir (setEntry x c es))
          | _ =>
              c ← lookupEntry x es;
              c' ← fsUpdate r f c;
              Some (EDir (setEntry x c' es))
          end
      | _ => None
      end
  end.

(** [os.Mkdir(p, 0700)] *)
Definition osMkdir (old : option Entry) : option Entry :=
  match old with None => Some (EDir []) | Some _ => None end.

(** [os.Symlink(target, p)] *)
Definition osSymlink (target : string) (old : option Entry) : option Entry :=
  match old with None => Some (ESymlink target) | Some _ => None end.

(** [os.Create(p)] followed by [f.Write(data)]: a new file has mode 0666,
    an existing one is truncated.  Creating over a symlink, which the
    operating system would follow, is outside this model and fails. *)
Definition osCreate (data : string) (old : option Entry) : option Entry :=
  match old with
  | None => Some (EFile 438 0 data)
  | Some (EFile mode mtime _) => Some (EFile mode mtime data)
  | Some _ => None
  end.

(** [func writeChanges(p string, inp []*change) error] on the tree at the
    mount point; [None] is an error.  [os.Link(filepath.Join(p,
    stat.Linkname), p)] always fails: its source lies below its target. *)
Fixpoint writeChanges (mount : Entry) (inp : list change) : option Entry :=
  match inp with
  | [] => Some mount
  | c :: rest =>
      match ckind c with
      | ChangeKindAdd =>
          p ← joinMount (cpath c);
          mount' ←
            (if IsDir (cfi c) then fsUpdate p osMkdir mount
             else if IsSymlink (cfi c) then
               fsUpdate p (osSymlink (Linkname (cfi c))) mount
             else if decide (0 < String.length (Linkname (cfi c)))%nat then None
             else fsUpdate p (osCreate (cdata c)) mount);
          writeChanges mount' rest
      | _ => writeChanges mount rest
      end
  end.

(** [func createRef(t, cm, files []string) cache.ImmutableRef]: a fresh
    mount is written and committed under the identity [id] that the cache
    manager picks. *)
Definition createRef (id : string) (files : list string) : option Ref :=
  chs ← changeStream files;
  fs ← writeChanges (EDir []) chs;
  match fs with
  | EDir es => Some (mkRef id es)
  | _ => None
  end.

(** The same tree without what is at path [p]. *)
Fixpoint fsRemove (p : Path) (e : Entry) : Entry :=
  match p with
  | [] => e
  | x :: r =>
      match e with
      | EDir es =>
          match r with
          | [] => EDir (filter (λ ne, ne.1 ≠ x) es)
          | _ =>
              EDir (map (λ ne, if decide (ne.1 = x)
                               then (ne.1, fsRemove r ne.2) else ne) es)
          end
      | _ => e
      end
  end.

(** *** The data of the tests *)

(** An algorithm to run the tests with: the hash of a byte string is the
    string itself, so that no two inputs collide. *)
Definition identityAlgorithm : Algorithm :=
  {| sumHex := λ s, s; absentMarker := ""; maxSymlinks := 255 |}.

Definition basicFiles : list string :=
  [ "ADD foo file data0";
    "ADD bar file data1";
    "ADD d0 dir";
    "ADD d0/abc file data0";
    "ADD d0/def symlink abc";
    "ADD d0/ghi symlink nosuchfile" ].

Definition d0Files : list string :=
  [ "ADD abc file data0";
    "ADD def symlink abc";
    "ADD ghi symlink nosuchfile" ].

Definition d0ModifiedFiles : list string :=
  [ "ADD abc file data0";
    "ADD def symlink abc" ].


(** The references [createRef] makes of these streams. *)
Definition basicRef : Ref :=
  mkRef "basic"
    [ ("foo", EFile 438 0 "data0");
      ("bar", EFile 438 0 "data1");
      ("d0", EDir [ ("abc", EFile 438 0 "data0");
                    ("def", ESymlink "abc");
                    ("ghi", ESymlink "nosuchfile") ]) ].

Definition d0Ref : Ref :=
  mkRef "d0"
    [ ("abc", EFile 438 0 "data0");
      ("def", ESymlink "abc");
      ("ghi", ESymlink "nosuchfile") ].

Definition d0ModifiedRef : Ref :=
  mkRef "d0modified"
    [ ("abc", EFile 438 0 "data0");
      ("def", ESymlink "abc") ].













(** The process before anything was computed or saved, and after
    [Checksum(ctx, ref, "foo")] on the tree of [basicFiles]. *)
Definition coldWorld : World := mkWorld ∅ ∅.

Definition fooCached : CacheContext :=
  mkCC (store ["foo"] File "sha256:data0" (Some emptyDir)).

Definition warmWorld : World :=
  mkWorld {[ "basic" := fooCached ]} {[ "basic" := tree fooCached ]}.

(** The same after [Checksum(ctx, ref, "d0")]. *)
Definition d0Cached : CacheContext :=
  mkCC (store ["d0"] Directory "sha256:abcsha256:data0defsha256:data0ghi"
              (Some emptyDir)).

Definition warmWorldD0 : World :=
  mkWorld {[ "basic" := d0Cached ]} {[ "basic" := tree d0Cached ]}.



(** The tree of [basicFiles] written in another order. *)
Definition shuffledFiles : list string :=
  [ "ADD d0 dir";
    "ADD d0/ghi symlink nosuchfile";
    "ADD bar file data1";
    "ADD d0/def symlink abc";
    "ADD foo file data0";
    "ADD d0/abc file data0" ].

Definition shuffledRef : Ref :=
  mkRef "shuffled"
    [ ("d0", EDir [ ("ghi", ESymlink "nosuchfile");
                    ("def", ESymlink "abc");
                    ("abc", EFile 438 0 "data0") ]);
      ("bar", EFile 438 0 "data1");
      ("foo", EFile 438 0 "data0") ].

(** *** Notions the properties are stated with *)

Section notions.

Context {alg : Algorithm}.

(** What an empty store shows of a filesystem entry. *)
Definition observeEntry (e : Entry) : Obs :=
  match e with
  | EFile mode mtime content =>
      mkObs File (Some (HashFile content (statOfFile mode mtime content))) "" []
  | EDir es => mkObs Directory None "" (sortNames (entryNames (Some (EDir es))))
  | ESymlink target => mkObs Symlink None target []
  end.




(** What is seen at path [p] from a location. *)
Definition seen (l : Loc) (p : Path) : option Obs := locate p l ≫= observe.

(** The shape of what is seen: the kind and the link target, which is all
    that the resolution of symlinks reads. *)
Definition shape (o : option Obs) : option (Kind * string) :=
  (λ o, (okind o, olink o)) <$> o.

(** A node of the store mirrors an entry of a filesystem: the same kind;
    for a file the digest of its bytes; for a directory no digest yet; for a
    symlink the same target. *)
Definition mirrorHere (on : option Node) (oe : option Entry) : Prop :=
  match on, oe with
  | None, None => True
  | Some m, Some (EFile mode mtime content) =>
      kind m = File ∧
      digest m = Some (HashFile content (statOfFile mode mtime content)) ∧
      linkname m = ""
  | Some m, Some (EDir _) =>
      kind m = Directory ∧ digest m = None ∧ linkname m = ""
  | Some m, Some (ESymlink target) =>
      kind m = Symlink ∧ linkname m = target
  | _, _ => False
  end.

(** A store mirrors a filesystem when it does so at every path. *)
Definition Mirror (n : Node) (e : Entry) : Prop :=
  ∀ p, mirrorHere (nodeAt p n) (entryAt p e).


(** A tree loaded from durable storage, at a location. *)
Definition trustLoc (l : Loc) : Loc := (trust <$> l.1, l.2).

(** [Checksum] returns [r] at path [p]: it does so when it is given enough
    fuel. *)
Definition Returns (cc : CacheContext) (ref : Ref) (p : Path) (r : Result) : Prop :=
  ∃ fuel, outcome (checksumAt fuel cc ref p) = Some r.




End notions.





End contenthash.
(** ** Facts about the environment lists *)

Module llb_theory.
Import llb.

Local Open Scope Z_scope.

Lemma length_read (h : Heap) (s : Slice) :
  wf h s → length (read h s) = slen s.
Proof.
  unfold wf, read. destruct (sarr s) as [a|].
  - intros (l & -> & Hl & Hle). simpl.
    rewrite length_take, length_drop. lia.
  - intros [-> _]. reflexivity.
Qed.

Lemma window_write {A} (l xs : list A) (off len cap : nat) :
  (off + cap)%nat = length l → (len + length xs ≤ cap)%nat →
  let l' := take (off + len) l ++ xs ++ drop (off + (len + length xs)) l in
  length l' = length l ∧
  take (len + length xs) (drop off l') = take len (drop off l) ++ xs.
Proof.
  intros Hl Hn l'. subst l'. split.
  - rewrite !length_app, length_take, length_drop. lia.
  - rewrite drop_app_le by (rewrite length_take; lia).
    rewrite skipn_firstn_comm.
    replace (off + len - off)%nat with len by lia.
    rewrite app_assoc.
    apply take_app_length'.
    rewrite length_app, length_take, length_drop. lia.
Qed.

Section facts.

Variable grow : nat → nat → nat.

(** [append] returns the old elements followed by the new ones, keeps the
    slice well formed, and writes to no array but the slice's own; when it
    allocates, it writes to none at all. *)
Lemma append_spec (h : Heap) (s : Slice) (xs : list KeyValue) h' s' :
  wf h s → append grow h s xs = (h', s') →
  wf h' s' ∧ read h' s' = read h s ++ xs ∧
  (∀ a l, h !! a = Some l → sarr s ≠ Some a → h' !! a = Some l) ∧
  (sarr s' = sarr s ∨
   ∃ a, sarr s' = Some a ∧ h !! a = None ∧
        ∀ b l, h !! b = Some l → h' !! b = Some l).
Proof.
  intros Hwf. unfold append.
  destruct (decide (slen s + length xs ≤ scap s)%nat) as [Hfit|Hgrow].
  - destruct (sarr s) as [a|] eqn:Ha.
    + intros [= <- <-].
      assert (Hwf' := Hwf). unfold wf in Hwf'. rewrite Ha in Hwf'.
      destruct Hwf' as (l & Hla & Hl & Hle).
      destruct (window_write l xs (soff s) (slen s) (scap s) Hl Hfit)
        as [Hlen Hwin].
      split; [|split; [|split]].
      * unfold wf. simpl. eexists. split.
        { rewrite lookup_alter_eq, Hla. reflexivity. }
        simpl. rewrite Hlen. split; lia.
      * unfold read. simpl. rewrite Ha, lookup_alter_eq, Hla. simpl.
        exact Hwin.
      * intros b lb Hb Hne. rewrite lookup_alter_ne; [done|].
        intros ->. done.
      * left. reflexivity.
    + intros [= <- <-].
      split; [done|]. split.
      * unfold wf in Hwf. rewrite Ha in Hwf. destruct Hwf as [Hz Hc].
        destruct xs; [by rewrite app_nil_r|]. simpl in Hfit. lia.
      * split; [by intros|]. by left.
  - intros [= <- <-].
    set (a := fresh (dom h)).
    assert (Hfresh : h !! a = None).
    { apply not_elem_of_dom. apply is_fresh. }
    assert (Hlenr := length_read h s Hwf).
    split; [|split; [|split]].
    + unfold wf. simpl. eexists. split; [apply lookup_insert_eq|].
      rewrite !length_app, length_replicate, Hlenr. split; lia.
    + unfold read at 1. simpl. rewrite lookup_insert_eq. simpl.
      rewrite drop_0, app_assoc. apply take_app_length'.
      rewrite length_app. lia.
    + intros b lb Hb _. rewrite lookup_insert_ne; [done|].
      intros <-. congruence.
    + right. exists a. split; [done|]. split; [done|].
      intros b lb Hb. rewrite lookup_insert_ne; [done|].
      intros <-. congruence.
Qed.

(** [s[lo:hi]] inside the length reads the corresponding window. *)
Lemma reslice_spec (h : Heap) (s : Slice) (lo hi : Z) :
  wf h s → 0 ≤ lo → lo ≤ hi → hi ≤ Z.of_nat (slen s) →
  ∃ s', reslice s lo hi = Some s' ∧ sarr s' = sarr s ∧ wf h s' ∧
        slen s' = Z.to_nat (hi - lo) ∧
        read h s' = take (Z.to_nat (hi - lo)) (drop (Z.to_nat lo) (read h s)).
Proof.
  intros Hwf Hlo Hhi Hlen. unfold reslice.
  assert (Hcap : (slen s ≤ scap s)%nat).
  { unfold wf in Hwf. destruct (sarr s); [destruct Hwf as (?&?&?&?)|]; lia. }
  rewrite decide_True by lia.
  eexists. split; [reflexivity|]. split; [reflexivity|].
  unfold wf, read in *. simpl. destruct (sarr s) as [a|].
  - destruct Hwf as (l & Hla & Hl & Hle). rewrite Hla. simpl.
    split; [|split; [reflexivity|]].
    + exists l. split; [done|]. split; lia.
    + rewrite skipn_firstn_comm, take_take, drop_drop.
      f_equal. lia.
  - destruct Hwf as [Hz Hc]. split; [split; lia|]. split; [reflexivity|].
    by rewrite drop_nil, take_nil.
Qed.

End facts.

(** The loop of [Index]: a hit is the first entry for [k], and [removeFirst]
    cuts the list exactly there; a miss means no entry for [k] at all. *)
Lemma indexFrom_hit (i : Z) (l : list KeyValue) (k : string) (j : Z) :
  indexFrom i l k = (j, true) →
  ∃ n kv, j = i + Z.of_nat n ∧ l !! n = Some kv ∧ key kv = k ∧
          removeFirst k l = take n l ++ drop (S n) l.
Proof.
  revert i. induction l as [|kv r IH]; intros i; simpl; [done|].
  destruct (decide (key kv = k)) as [Hk|Hk].
  - intros [= <-]. exists 0%nat, kv. simpl. rewrite drop_0.
    repeat split; [lia|done].
  - intros H. destruct (IH _ H) as (n & kv' & -> & Hn & Hkv & Hrm).
    exists (S n), kv'. simpl. rewrite Hrm.
    repeat split; [lia|done|done].
Qed.

Lemma indexFrom_miss (i : Z) (l : list KeyValue) (k : string) (j : Z) :
  indexFrom i l k = (j, false) →
  j = -1 ∧ removeFirst k l = l ∧ occurrences k l = 0%nat.
Proof.
  revert i. unfold occurrences.
  induction l as [|kv r IH]; intros i; simpl; [by intros [= <-]|].
  destruct (decide (key kv = k)) as [Hk|Hk]; [done|].
  intros H. destruct (IH _ H) as (-> & Hrm & Hocc).
  rewrite Hrm, filter_cons_False by done. done.
Qed.

(** With at most one entry for [k], cutting the first one is filtering. *)
Lemma removeFirst_filter (k : string) (l : list KeyValue) :
  (occurrences k l ≤ 1)%nat →
  removeFirst k l = filter (λ kv, key kv ≠ k) l.
Proof.
  unfold occurrences. induction l as [|kv r IH]; simpl; [done|].
  destruct (decide (key kv = k)) as [Hk|Hk].
  - rewrite filter_cons_True by done. rewrite filter_cons_False by tauto.
    simpl. intros Hle.
    assert (Hnone : length (filter (λ kv0, key kv0 = k) r) = 0%nat) by lia.
    apply length_zero_iff_nil in Hnone.
    clear -Hnone. induction r as [|x r IH]; [done|].
    rewrite filter_cons in Hnone.
    destruct (decide (key x = k)) as [Hx|Hx]; [done|].
    rewrite filter_cons_True by done. f_equal. by apply IH.
  - rewrite filter_cons_False by done. rewrite filter_cons_True by done.
    intros Hle. f_equal. by apply IH.
Qed.

Lemma indexFrom_last (i : Z) (l : list KeyValue) (k v : string) :
  occurrences k l = 0%nat →
  indexFrom i (l ++ [mkKV k v]) k = (i + Z.of_nat (length l), true).
Proof.
  revert i. unfold occurrences.
  induction l as [|kv r IH]; intros i; simpl.
  - intros _. rewrite decide_True by done. f_equal. lia.
  - rewrite filter_cons. destruct (decide (key kv = k)); [done|].
    intros H. rewrite IH by done. f_equal. lia.
Qed.

Lemma occurrences_filter_ne (k : string) (l : list KeyValue) :
  occurrences k (filter (λ kv, key kv ≠ k) l) = 0%nat.
Proof.
  unfold occurrences. induction l as [|kv r IH]; [done|].
  rewrite filter_cons. destruct (decide (key kv ≠ k)); [|done].
  rewrite filter_cons_False by done. done.
Qed.

Section operations.

Variable grow : nat → nat → nat.

(** [Delete] never panics, returns the list without the first entry for
    [k] in an array of its own, and leaves every array of the caller's heap
    as it was. *)
Lemma Delete_spec (h : Heap) (e : Slice) (k : string) :
  wf h e →
  ∃ h' e', Delete grow h e k = Some (h', e') ∧ wf h' e' ∧
           read h' e' = removeFirst k (read h e) ∧
           (∀ a l, h !! a = Some l → h' !! a = Some l) ∧
           (∀ a, sarr e' = Some a → h !! a = None).
Proof.
  intros Hwf. unfold Delete.
  destruct (append grow h nilSlice (read h e)) as [h1 e1] eqn:Hcopy.
  assert (Hnil : wf h nilSlice) by done.
  destruct (append_spec grow _ _ _ _ _ Hnil Hcopy)
    as (Hwf1 & Hread1 & Hframe1 & Harr1).
  simpl in Hread1.
  assert (Hkeep1 : ∀ a l, h !! a = Some l → h1 !! a = Some l).
  { intros a l Ha. by apply Hframe1. }
  assert (Hfresh1 : ∀ a, sarr e1 = Some a → h !! a = None).
  { intros a Ha. destruct Harr1 as [Hsame|(a' & Ha' & Hnone & _)];
      [by rewrite Ha in Hsame|]. congruence. }
  unfold Index. rewrite Hread1.
  destruct (indexFrom 0 (read h e) k) as [i [|]] eqn:Hidx.
  - destruct (indexFrom_hit _ _ _ _ Hidx) as (n & kv & -> & Hn & Hkv & Hrm).
    assert (Hlt : (n < length (read h e))%nat) by (by eapply lookup_lt_Some).
    assert (Hlen1 : slen e1 = length (read h e)).
    { by rewrite <- (length_read h1 e1 Hwf1), Hread1. }
    destruct (reslice_spec h1 e1 0 (0 + Z.of_nat n) Hwf1)
      as (a & -> & Haarr & Hwfa & Hlena & Hreada); [lia..|].
    destruct (reslice_spec h1 e1 (0 + Z.of_nat n + 1) (Z.of_nat (slen e1)) Hwf1)
      as (b & -> & Hbarr & Hwfb & Hlenb & Hreadb); [lia..|].
    simpl.
    destruct (append grow h1 a (read h1 b)) as [h2 e2] eqn:Hcut.
    destruct (append_spec grow _ _ _ _ _ Hwfa Hcut)
      as (Hwf2 & Hread2 & Hframe2 & Harr2).
    exists h2, e2. split; [done|]. split; [done|]. split; [|split].
    + rewrite Hread2, Hreada, Hreadb, Hread1, Hrm, drop_0.
      replace (Z.to_nat (0 + Z.of_nat n - 0)) with n by lia.
      replace (Z.to_nat (0 + Z.of_nat n + 1)) with (S n) by lia.
      f_equal. apply take_ge. rewrite length_drop. lia.
    + intros a0 l Ha0. apply Hframe2; [by apply Hkeep1|].
      rewrite Haarr. intros Heq. apply Hfresh1 in Heq. congruence.
    + intros a0 Ha0. destruct Harr2 as [Hsame|(a' & Ha' & Hnone & _)].
      * apply Hfresh1. congruence.
      * assert (a0 = a') as -> by congruence.
        destruct (h !! a') as [l|] eqn:Hl; [|done].
        apply Hkeep1 in Hl. congruence.
  - destruct (indexFrom_miss _ _ _ _ Hidx) as (_ & Hrm & _).
    exists h1, e1. rewrite Hrm. done.
Qed.

(** [AddOrReplace] never panics, returns the list without the first entry
    for [k] followed by the new entry, and leaves every array of the
    caller's heap as it was. *)
Lemma AddOrReplace_spec (h : Heap) (e : Slice) (k v : string) :
  wf h e →
  ∃ h' e', AddOrReplace grow h e k v = Some (h', e') ∧ wf h' e' ∧
           read h' e' = removeFirst k (read h e) ++ [mkKV k v] ∧
           (∀ a l, h !! a = Some l → h' !! a = Some l).
Proof.
  intros Hwf. unfold AddOrReplace.
  destruct (Delete_spec h e k Hwf)
    as (h1 & e1 & -> & Hwf1 & Hread1 & Hkeep1 & Hfresh1).
  simpl.
  destruct (append grow h1 e1 [mkKV k v]) as [h2 e2] eqn:Happ.
  destruct (append_spec grow _ _ _ _ _ Hwf1 Happ)
    as (Hwf2 & Hread2 & Hframe2 & _).
  exists h2, e2. split; [done|]. split; [done|]. split.
  - by rewrite Hread2, Hread1.
  - intros a l Ha. apply Hframe2; [by apply Hkeep1|].
    intros Heq. apply Hfresh1 in Heq. congruence.
Qed.

(** [Get] on a list that ends in the only entry for [k]. *)
Lemma Get_last (h : Heap) (e : Slice) (k v : string) (l : list KeyValue) :
  read h e = l ++ [mkKV k v] → occurrences k l = 0%nat →
  Get h e k = Some (v, true).
Proof.
  intros Hread Hocc. unfold Get, Index.
  rewrite Hread, indexFrom_last by done.
  rewrite decide_True by lia.
  replace (Z.to_nat (0 + Z.of_nat (length l))) with (length l + 0)%nat by lia.
  rewrite lookup_app_r by lia.
  replace (length l + 0 - length l)%nat with 0%nat by lia. done.
Qed.

End operations.

Section claims.

Variable grow : nat → nat → nat.

(** Lists built by the package keep at most one entry per key: the empty
    list has none, and both operations preserve the bound. *)
Lemma occurrences_removeFirst (k k' : string) (l : list KeyValue) :
  (occurrences k' (removeFirst k l) ≤ occurrences k' l)%nat.
Proof.
  unfold occurrences. induction l as [|kv r IH]; simpl; [done|].
  destruct (decide (key kv = k)).
  - rewrite filter_cons. destruct (decide (key kv = k')); simpl; lia.
  - rewrite !filter_cons. destruct (decide (key kv = k')); simpl; lia.
Qed.

Lemma AddOrReplace_keeps_unique (k v : string) (l : list KeyValue) :
  (∀ k', occurrences k' l ≤ 1)%nat →
  (∀ k', occurrences k' (removeFirst k l ++ [mkKV k v]) ≤ 1)%nat.
Proof.
  intros Huniq k'. unfold occurrences. rewrite filter_app, length_app.
  destruct (decide (k = k')) as [<-|Hne].
  - rewrite removeFirst_filter by apply Huniq.
    pose proof (occurrences_filter_ne k l) as H0. unfold occurrences in H0.
    rewrite H0. rewrite filter_cons_True by done. simpl. lia.
  - rewrite filter_cons_False by done. simpl.
    pose proof (occurrences_removeFirst k k' l) as H1.
    pose proof (Huniq k') as H2. unfold occurrences in *. lia.
Qed.

(** C10 (amended): for every well-formed list [e] with at most one entry
    for [k], [AddOrReplace e k v] returns a list on which [Get k] answers
    [(v, true)]; the entry for [k] is there exactly once, at the last index;
    the entries for the other keys are kept, in their order; and neither
    [AddOrReplace] nor [Delete] changes an array of the caller's heap, so the
    receiver still reads as before. *)
Theorem AddOrReplace_Get (h : Heap) (e : Slice) (k v : string) :
  wf h e → (occurrences k (read h e) ≤ 1)%nat →
  ∃ h' e',
    AddOrReplace grow h e k v = Some (h', e') ∧
    Get h' e' k = Some (v, true) ∧
    read h' e' = filter (λ kv, key kv ≠ k) (read h e) ++ [mkKV k v] ∧
    occurrences k (read h' e') = 1%nat ∧
    read h' e' !! (length (read h' e') - 1)%nat = Some (mkKV k v) ∧
    (∀ a l, h !! a = Some l → h' !! a = Some l) ∧
    read h' e = read h e ∧
    ∃ h'' e'',
      Delete grow h e k = Some (h'', e'') ∧
      (∀ a l, h !! a = Some l → h'' !! a = Some l) ∧
      read h'' e = read h e.
Proof.
  intros Hwf Hocc.
  assert (Hsame : ∀ h2 : Heap,
    (∀ a l, h !! a = Some l → h2 !! a = Some l) → read h2 e = read h e).
  { intros h2 Hkeep. unfold read. unfold wf in Hwf.
    destruct (sarr e) as [a|]; [|done].
    destruct Hwf as (l & Hl & _). by rewrite (Hkeep _ _ Hl), Hl. }
  destruct (AddOrReplace_spec grow h e k v Hwf)
    as (h' & e' & Hrun & Hwf' & Hread & Hkeep).
  rewrite removeFirst_filter in Hread by done.
  exists h', e'. split; [done|].
  split; [by eapply Get_last, occurrences_filter_ne|].
  split; [done|]. split; [|split; [|split; [done|split; [by apply Hsame|]]]].
  - rewrite Hread. unfold occurrences. rewrite filter_app, length_app.
    pose proof (occurrences_filter_ne k (read h e)) as H0.
    unfold occurrences in H0. rewrite H0.
    by rewrite filter_cons_True by done.
  - rewrite Hread, length_app. simpl.
    rewrite lookup_app_r by lia.
    by replace (_ + 1 - 1 - _)%nat with 0%nat by lia.
  - destruct (Delete_spec grow h e k Hwf)
      as (h'' & e'' & Hdel & _ & _ & Hkeep' & _).
    exists h'', e''. split; [done|]. split; [done|]. by apply Hsame.
Qed.

End claims.

Lemma wf_pathList : wf pathHeap pathList.
Proof. exists [mkKV "PATH" "/bin"; mkKV "HOME" "/root"]. by vm_compute. Qed.

(** The amended claim at work on [PATH=/bin, HOME=/root]. *)
Lemma AddOrReplace_Get_witness :
  ∃ h' e',
    AddOrReplace exactFit pathHeap pathList "PATH" "/usr/bin" = Some (h', e') ∧
    Get h' e' "PATH" = Some ("/usr/bin", true) ∧
    read h' e' = [mkKV "HOME" "/root"; mkKV "PATH" "/usr/bin"] ∧
    read h' pathList = [mkKV "PATH" "/bin"; mkKV "HOME" "/root"].
Proof.
  destruct (AddOrReplace_Get exactFit pathHeap pathList "PATH" "/usr/bin")
    as (h' & e' & Hrun & Hget & Hread & _ & _ & _ & Hsame & _).
  - exact wf_pathList.
  - vm_compute. lia.
  - exists h', e'. repeat split; assumption.
Defined.

(** C10 as stated fails on a list with two entries for the key: [Delete]
    removes only the first, so the older value stays in front of the new
    one and [Get] answers with it; the key is then there twice. *)
Lemma AddOrReplace_duplicate_key :
  wf dupHeap dupList ∧
  ∃ h' e',
    AddOrReplace exactFit dupHeap dupList "k" "v" = Some (h', e') ∧
    read h' e' = [mkKV "k" "2"; mkKV "k" "v"] ∧
    Get h' e' "k" = Some ("2", true) ∧
    Get h' e' "k" ≠ Some ("v", true) ∧
    occurrences "k" (read h' e') = 2%nat.
Proof.
  split.
  - exists [mkKV "k" "1"; mkKV "k" "2"]. by vm_compute.
  - destruct (AddOrReplace exactFit dupHeap dupList "k" "v") as [[h' e']|] eqn:Hrun;
      [|by vm_compute in Hrun].
    exists h', e'. split; [done|].
    assert (Hread : read h' e' = [mkKV "k" "2"; mkKV "k" "v"]).
    { assert (Some (read h' e') = Some [mkKV "k" "2"; mkKV "k" "v"]) as [= ->];
        [|done].
      change (Some (read h' e')) with
        ((λ r : Heap * Slice, read r.1 r.2) <$> Some (h', e')).
      rewrite <- Hrun. by vm_compute. }
    split; [done|].
    unfold Get, Index. rewrite Hread. by vm_compute.
Qed.

End llb_theory.

(** ** Facts about the router *)

Module router_theory.
Import router.

Local Open Scope Z_scope.

Lemma indexFrom_dotless (i : Z) (host : string) :
  dotless host → indexFrom i host "." = -1.
Proof.
  unfold dotless. revert i. induction host as [|c host IH]; intros i Hno.
  - reflexivity.
  - change (indexFrom i (String c host) ".") with
      (if (if ascii_dec "." c then String.prefix "" host else false)
       then i else indexFrom (i + 1) host ".").
    change (list_ascii_of_string (String c host))
      with (c :: list_ascii_of_string host) in Hno.
    destruct (ascii_dec "." c) as [<-|Hc].
    + exfalso. apply Hno. left.
    + apply IH. intros Hin. apply Hno. by right.
Qed.

Lemma slice_negative (s : string) (lo : Z) : slice s lo (-1) = None.
Proof. unfold slice. apply decide_False. lia. Qed.

Section claims.

Variable newRequestOk : string → string → bool.
Variable Do : string → string → Header → option string → Response + string.

(** C9: on a request whose [Host] has no ['.'], [strings.Index] answers -1,
    the slice expression [r.Host[0:-1]] is out of bounds and the handler
    panics: it returns no response and never reaches the upstream.  For
    the empty [Host] the status 400 has been sent by then, since the handler
    goes on after [WriteHeader]. *)
Theorem makeHandler_panics_on_dotless_host
    (upstreamURL : string) (w : ResponseWriter) (r : Request) :
  dotless (Host r) →
  Index (Host r) "." = -1 ∧
  ∃ w', makeHandler newRequestOk Do upstreamURL w r
          = Panicked SliceBoundsOutOfRange w' [] ∧
        (Host r = "" → w' = WriteHeader StatusBadRequest w) ∧
        (Host r ≠ "" → w' = w).
Proof.
  intros Hno.
  assert (Hidx : Index (Host r) "." = -1) by (by apply indexFrom_dotless).
  split; [done|].
  unfold makeHandler. rewrite Hidx, slice_negative.
  destruct (decide (String.length (Host r) = 0%nat)) as [Hlen|Hlen].
  - exists (WriteHeader StatusBadRequest w). split.
    + by destruct (if HasPrefix _ _ then _ else _).
    + split; [done|]. intros Hne. destruct (Host r); [done|discriminate].
  - exists w. split.
    + by destruct (if HasPrefix _ _ then _ else _).
    + split; [|done]. intros Heq. by rewrite Heq in Hlen.
Qed.

End claims.

Lemma dotless_localhost : dotless "localhost".
Proof. by apply (bool_decide_unpack _). Qed.

Lemma dotless_empty : dotless "".
Proof. by apply (bool_decide_unpack _). Qed.

(** The handler on [Host: localhost] and on an empty [Host]. *)
Lemma makeHandler_panics_witness :
  makeHandler acceptAll upstreamDown "http://gateway:8080/" newWriter
    (mkRequest "GET" "localhost" "/" ∅ None)
    = Panicked SliceBoundsOutOfRange newWriter [] ∧
  makeHandler acceptAll upstreamDown "http://gateway:8080/" newWriter
    (mkRequest "GET" "" "/" ∅ None)
    = Panicked SliceBoundsOutOfRange (mkWriter (Some 400) ∅ "") [].
Proof.
  split.
  - destruct (makeHandler_panics_on_dotless_host acceptAll upstreamDown
                "http://gateway:8080/" newWriter
                (mkRequest "GET" "localhost" "/" ∅ None) dotless_localhost)
      as (_ & w' & Hrun & _ & Hw).
    rewrite Hrun, Hw; [reflexivity|discriminate].
  - destruct (makeHandler_panics_on_dotless_host acceptAll upstreamDown
                "http://gateway:8080/" newWriter
                (mkRequest "GET" "" "/" ∅ None) dotless_empty)
      as (_ & w' & Hrun & Hw & _).
    rewrite Hrun, Hw; reflexivity.
Defined.

End router_theory.

(** ** Facts about the checksum cache *)

Module contenthash_theory.
Import contenthash.

Section views.

Context {alg : Algorithm}.

(** *** Views that agree along a translation of paths *)

Section simulation.

Variables (V1 V2 : View) (φ : Path → Path).
Hypothesis Hview : ∀ q, V1 (φ q) = V2 q.
Hypothesis Hlink : ∀ q o, V2 q = Some o → okind o = Symlink →
  joinLink (removelast (φ q)) (olink o) = φ (joinLink (removelast q) (olink o)).
Hypothesis Hchild : ∀ q name, φ (q ++ [name]) = φ q ++ [name].



End simulation.



(** *** Locating a path *)


Lemma observe_none (e : Entry) : observe (None, Some e) = Some (observeEntry e).
Proof. by destruct e. Qed.





(** *** Chains of symlinks *)





(** *** Files *)

Lemma HashFile_content (c : string) (st1 st2 : Stat) :
  HashFile c st1 = HashFile c st2.
Proof. reflexivity. Qed.





Lemma outcome_checksumAt (cc : CacheContext) (ref : Ref) (p : Path) (f : nat) :
  outcome (checksumAt f cc ref p) = digestAt (view cc ref) f p.
Proof.
  unfold outcome, checksumAt.
  destruct (digestAt (view cc ref) f p) as [[d|e]|]; try done.
  destruct (follow _ _ _) as [q|]; [|done].
  by destruct (view cc ref q).
Qed.


(** *** The claims about single paths *)



End views.

(** The claims on the tree of [TestChecksumBasicFile], and on the cache
    that [TestHandleChange] builds from events. *)

Lemma createRef_basicFiles : createRef "basic" basicFiles = Some basicRef.
Proof. by vm_compute. Qed.

Lemma createRef_d0Files : createRef "d0" d0Files = Some d0Ref.
Proof. by vm_compute. Qed.

Lemma createRef_d0ModifiedFiles :
  createRef "d0modified" d0ModifiedFiles = Some d0ModifiedRef.
Proof. by vm_compute. Qed.



(** *** Trees that are identical *)

Lemma lookupEntry_is_Some (name : string) (es : list (string * Entry)) :
  name ∈ es.*1 ↔ is_Some (lookupEntry name es).
Proof.
  induction es as [|[n e] r IH]; simpl.
  - split; [by intros ?%elem_of_nil|by intros [? ?]].
  - destruct (decide (n = name)) as [->|Hne].
    + split; [by eauto|]. intros _. left.
    + rewrite elem_of_cons, IH. simpl. split; [by intros [?|?]|by right].
Qed.





Section identical.

Context {alg : Algorithm}.





End identical.


(** The tree of the test written in another order is identical to it. *)
Lemma createRef_shuffledFiles : createRef "shuffled" shuffledFiles = Some shuffledRef.
Proof. by vm_compute. Qed.




(** *** Removing an entry of the filesystem *)

Lemma lookupEntry_filter (name x : string) (es : list (string * Entry)) :
  lookupEntry name (filter (λ ne, ne.1 ≠ x) es)
  = if decide (name = x) then None else lookupEntry name es.
Proof.
  induction es as [|[n e] r IH]; [by destruct (decide (name = x))|].
  rewrite filter_cons. simpl.
  destruct (decide (n ≠ x)) as [Hn|Hn].
  - simpl. destruct (decide (n = name)) as [->|?]; [|done].
    by rewrite decide_False.
  - rewrite IH. apply dec_stable in Hn as ->.
    destruct (decide (name = x)) as [->|?]; [done|].
    by rewrite decide_False.
Qed.

Lemma lookupEntry_map (name x : string) (g : Entry → Entry)
    (es : list (string * Entry)) :
  lookupEntry name (map (λ ne, if decide (ne.1 = x) then (ne.1, g ne.2) else ne) es)
  = if decide (name = x) then g <$> lookupEntry name es else lookupEntry name es.
Proof.
  induction es as [|[n e] r IH]; [by destruct (decide (name = x))|].
  simpl. destruct (decide (n = x)) as [->|Hn]; simpl.
  - destruct (decide (x = name)) as [->|?].
    + by rewrite decide_True.
    + rewrite IH. done.
  - destruct (decide (n = name)) as [->|?].
    + by rewrite decide_False.
    + by rewrite IH.
Qed.


Lemma fsRemove_cons (x : string) (r : Path) (es : list (string * Entry)) :
  r ≠ [] →
  fsRemove (x :: r) (EDir es)
  = EDir (map (λ ne, if decide (ne.1 = x) then (ne.1, fsRemove r ne.2) else ne) es).
Proof. by destruct r. Qed.


(** *** Fuel *)

Section fuel.

Context {alg : Algorithm}.

Lemma collect_mono (g g' : string → option Result) (names : list string) x :
  (∀ n r, n ∈ names → g n = Some r → g' n = Some r) →
  collect (map (λ n, (n, g n)) names) = Some x →
  collect (map (λ n, (n, g' n)) names) = Some x.
Proof.
  revert x. induction names as [|n names IH]; intros x Hg; [done|].
  simpl. destruct (g n) as [r|] eqn:Hn; [|done].
  rewrite (Hg n r) by (done || left).
  assert (Hg' : ∀ n r, n ∈ names → g n = Some r → g' n = Some r).
  { intros n' r' Hin. apply Hg. by right. }
  destruct r as [dg|[]]; try done.
  - destruct (collect (map _ names)) as [[l|e]|] eqn:Hc; [| |done];
      by rewrite (IH _ Hg' eq_refl).
  - destruct (collect (map _ names)) as [[l|e]|] eqn:Hc; [| |done];
      by rewrite (IH _ Hg' eq_refl).
Qed.



Lemma digestStep_mono (V : View) (rec rec' : Path → option Result) (p : Path) r :
  (∀ q r, rec q = Some r → rec' q = Some r) →
  digestStep V rec p = Some r → digestStep V rec' p = Some r.
Proof.
  intros Hrec. unfold digestStep.
  destruct (follow V maxSymlinks p) as [q|]; [|done].
  destruct (V q) as [o|]; [|done].
  destruct (okind o), (odigest o); try done.
  destruct (collect (map (λ name, (name, rec (q ++ [name]))) (onames o)))
    as [x|] eqn:Hc; [|done].
  rewrite (collect_mono (λ n, rec (q ++ [n])) (λ n, rec' (q ++ [n])) _ x); [done| |done].
  intros n r' _. apply Hrec.
Qed.

(** More fuel does not change an answer. *)
Lemma digestAt_S (V : View) (f : nat) (p : Path) r :
  digestAt V f p = Some r → digestAt V (S f) p = Some r.
Proof.
  revert p r. induction f as [|f IH]; intros p r; [done|].
  change (digestAt V (S (S f)) p) with (digestStep V (digestAt V (S f)) p).
  change (digestAt V (S f) p) with (digestStep V (digestAt V f) p).
  by apply digestStep_mono.
Qed.

Lemma digestAt_le (V : View) (f f' : nat) (p : Path) r :
  (f ≤ f')%nat → digestAt V f p = Some r → digestAt V f' p = Some r.
Proof. intros Hle. induction Hle as [|f' Hle IH]; [done|]. intros Hd. by apply digestAt_S, IH. Qed.




End fuel.

Lemma length_append (s1 s2 : string) :
  String.length (s1 +:+ s2) = (String.length s1 + String.length s2)%nat.
Proof. induction s1 as [|c s1 IH]; simpl; [done|]. by rewrite IH. Qed.

(** *** Caching a digest *)

Lemma entryNames_child (oe : option Entry) (x : string) :
  x ∈ entryNames oe ↔ is_Some (oe ≫= entryChild x).
Proof.
  destruct oe as [[| es |]|]; simpl;
    try (split; [by intros ?%not_elem_of_empty|by intros [? ?]]).
  by rewrite elem_of_list_to_set, lookupEntry_is_Some.
Qed.

Section caching.

Context {alg : Algorithm}.

Lemma follow_shape (V1 V2 : View) (h : nat) (p : Path) :
  (∀ q, shape (V1 q) = shape (V2 q)) → follow V1 h p = follow V2 h p.
Proof.
  intros Hs. revert p. induction h as [|h IH]; intros p; simpl;
    specialize (Hs p); destruct (V1 p) as [o1|], (V2 p) as [o2|]; try done;
    injection Hs as Hk Hl; rewrite Hk; destruct (okind o2); try done.
  rewrite Hl. apply IH.
Qed.

(** Caching the digest of a located entry changes nothing that is seen,
    except that the digest is then seen at the entry. *)
Lemma seen_store (q : Path) (k : Kind) (d : Digest) (on : option Node)
    (oe : option Entry) (lq : Loc) (o : Obs) :
  locate q (on, oe) = Some lq → observe lq = Some o →
  okind o = k → k ≠ Symlink →
  (∀ p, p ≠ q → seen (Some (store q k d on), oe) p = seen (on, oe) p) ∧
  seen (Some (store q k d on), oe) q
    = Some (mkObs (okind o) (Some d) (olink o) (onames o)).
Proof.
  revert on oe. induction q as [|x r IH]; intros on oe Hloc Hobs Hk Hsym.
  - injection Hloc as <-. simpl. split.
    + intros p Hp. destruct p as [|y p]; [done|]. destruct on as [n|].
      * unfold seen. simpl.
        by replace (step y (Some (MkNode (kind n) (Some d) (linkname n)
                                     (children n) true), oe))
          with (step y (Some n, oe)).
      * destruct oe as [e|]; [|done]. rewrite observe_none in Hobs.
        injection Hobs as <-.
        unfold seen. simpl. unfold step. simpl.
        rewrite <- Hk. destruct e as [? ? ?|es|?]; simpl; [done| |done].
        unfold nodeChild. simpl. by rewrite lookup_empty.
    + destruct on as [n|].
      * injection Hobs as <-. simpl in Hk. unfold seen. simpl.
        f_equal. f_equal. rewrite Hk. by destruct k.
      * destruct oe as [e|]; [|done]. rewrite observe_none in Hobs.
        injection Hobs as <-. unfold seen. simpl. subst k.
        destruct e; simpl in *; try done.
        unfold sortNames. by rewrite dom_empty_L, (left_id_L ∅ (∪)).
  - simpl in Hloc.
    destruct (step x (on, oe)) as [l1|] eqn:Hstep; [|done]. simpl in Hloc.
    destruct l1 as [on1 oe1].
    set (base := default emptyDir on).
    assert (Hdir : isDir base = true ∧
                   on1 = children base !! x ∧
                   (∀ y, step y (Some base, oe) = step y (on, oe)) ∧
                   observe (Some base, oe) = observe (on, oe) ∧
                   oe1 = oe ≫= entryChild x).
    { subst base. unfold step in Hstep. destruct on as [n|]; simpl in *.
      - unfold nodeChild in Hstep. destruct (isDir n) eqn:Hn.
        + split; [done|]. split.
          { destruct (children n !! x), (oe ≫= entryChild x); by simplify_eq. }
          split; [done|]. split; [done|].
          destruct (children n !! x), (oe ≫= entryChild x); by simplify_eq.
        + done.
      - split; [done|]. rewrite lookup_empty.
        destruct (oe ≫= entryChild x) as [c|] eqn:Hc; [|done].
        injection Hstep as <- <-. split; [done|]. split.
        { intros y. unfold step. simpl. unfold nodeChild. simpl.
          by rewrite lookup_empty. }
        split; [|done].
        destruct oe as [[| es |]|]; try done. simpl.
        unfold sortNames. by rewrite dom_empty_L, (left_id_L ∅ (∪)). }
    destruct Hdir as (Hbase & Hon1 & Hsteps & Hobase & Hoe1).
    destruct (IH on1 oe1 Hloc Hobs Hk Hsym) as [IHother IHhere].
    set (new := MkNode (kind base) (digest base) (linkname base)
                  (<[x := store r k d (children base !! x)]> (children base))
                  (scanned base)).
    assert (Hnew : store (x :: r) k d on = new) by done.
    rewrite Hnew.
    assert (Hstepx : step x (Some new, oe) = Some (Some (store r k d on1), oe1)).
    { unfold step. simpl. unfold nodeChild.
      replace (isDir new) with true by done. simpl.
      rewrite lookup_insert_eq. by rewrite Hon1, Hoe1. }
    assert (Hstepy : ∀ y, y ≠ x → step y (Some new, oe) = step y (on, oe)).
    { intros y Hy. rewrite <- Hsteps. unfold step. simpl. unfold nodeChild.
      replace (isDir new) with true by done. rewrite Hbase. simpl.
      by rewrite lookup_insert_ne. }
    assert (Hx : x ∈ dom (children base) ∪ entryNames oe).
    { apply elem_of_union. rewrite elem_of_dom, entryNames_child.
      rewrite <- Hon1, <- Hoe1. unfold step in Hstep.
      destruct on1, oe1; eauto.
      exfalso. clear -Hstep. unfold step in Hstep. simpl in Hstep.
      repeat case_match; simplify_eq. }
    split.
    + intros p Hp. destruct p as [|y p].
      * change (seen (Some new, oe) []) with (observe (Some new, oe)).
        change (seen (on, oe) []) with (observe (on, oe)).
        rewrite <- Hobase. simpl.
        replace (isDir new) with true by done. rewrite Hbase.
        do 3 f_equal. rewrite dom_insert_L, <- (assoc_L (∪)).
        apply subseteq_union_1_L, singleton_subseteq_l, Hx.
      * unfold seen. simpl. destruct (decide (y = x)) as [->|Hy].
        -- rewrite Hstepx, Hstep. simpl. apply IHother. intros ->. done.
        -- by rewrite Hstepy.
    + unfold seen. simpl. rewrite Hstepx. simpl. apply IHhere.
Qed.

Lemma seen_store_shape (q : Path) (k : Kind) (d : Digest) (on : option Node)
    (oe : option Entry) (lq : Loc) (o : Obs) :
  locate q (on, oe) = Some lq → observe lq = Some o →
  okind o = k → k ≠ Symlink →
  (∀ p, shape (seen (Some (store q k d on), oe) p) = shape (seen (on, oe) p)) ∧
  ∃ o', seen (Some (store q k d on), oe) q = Some o' ∧
        okind o' = k ∧ odigest o' = Some d.
Proof.
  intros Hloc Hobs Hk Hsym.
  destruct (seen_store q k d on oe lq o Hloc Hobs Hk Hsym) as [Hother Hhere].
  split; [|by eexists].
  intros p. destruct (decide (p = q)) as [->|Hne]; [|by rewrite Hother].
  rewrite Hhere. unfold seen. by rewrite Hloc; simpl; rewrite Hobs.
Qed.

Lemma digestAt_OK_inv (V : View) (f : nat) (p : Path) (d : Digest) :
  digestAt V f p = Some (OK d) →
  ∃ q o, follow V maxSymlinks p = Some q ∧ V q = Some o ∧ okind o ≠ Symlink.
Proof.
  destruct f as [|f]; [done|]. simpl. unfold digestStep.
  destruct (follow V maxSymlinks p) as [q|] eqn:Hf; [|done].
  destruct (V q) as [o|] eqn:Ho; [|done].
  intros H. exists q, o. split; [done|]. split; [done|].
  intros Hk. by rewrite Hk in H.
Qed.

Lemma checksumAt_OK_inv (cc cc' : CacheContext) (ref : Ref) (p : Path)
    (f : nat) (d : Digest) :
  checksumAt f cc ref p = Some (OK d, cc') →
  ∃ q o, follow (view cc ref) maxSymlinks p = Some q ∧
         view cc ref q = Some o ∧ okind o ≠ Symlink ∧
         cc' = mkCC (store q (okind o) d (Some (tree cc))).
Proof.
  unfold checksumAt.
  destruct (digestAt (view cc ref) f p) as [[d'|e]|] eqn:Hd; [|done..].
  destruct (digestAt_OK_inv _ _ _ _ Hd) as (q & o & Hf & Ho & Hk).
  rewrite Hf, Ho. intros [= <- <-]. by exists q, o.
Qed.


(** *** A cache is transparent *)











(** [Checksum] returns one answer only. *)
Lemma Returns_functional (cc : CacheContext) (ref : Ref) (p : Path) (r r' : Result) :
  Returns cc ref p r → Returns cc ref p r' → r = r'.
Proof.
  unfold Returns. setoid_rewrite outcome_checksumAt.
  intros [f Hf] [f' Hf'].
  apply (digestAt_le _ _ (f `max` f')) in Hf; [|lia].
  apply (digestAt_le _ _ (f `max` f')) in Hf'; [|lia].
  congruence.
Qed.

End caching.

(** *** A cache built from change events *)




Section mirror.

Context {alg : Algorithm}.

Lemma Mirror_child (n m : Node) (es : list (string * Entry)) (c : Entry) (x : string) :
  Mirror n (EDir es) → nodeChild x n = Some m → lookupEntry x es = Some c →
  Mirror m c.
Proof.
  intros HM Hm Hc q. specialize (HM (x :: q)). simpl in HM.
  by rewrite Hm, Hc in HM.
Qed.


Lemma Mirror_isDir (n : Node) (es : list (string * Entry)) :
  Mirror n (EDir es) → kind n = Directory ∧ digest n = None ∧ linkname n = "".
Proof. intros HM. exact (HM []). Qed.





End mirror.




Section stream.

Context {alg : Algorithm}.
















End stream.




(** *** Event-built caches and the trees they present *)

Section presenting.

Context {alg : Algorithm}.


(** Removing a node keeps the store a mirror of the tree without the
    entry. *)
Lemma Mirror_removeAt (P : Path) (n : Node) (e : Entry) :
  P ≠ [] → Mirror n e → Mirror (removeAt P n) (fsRemove P e).
Proof.
  revert n e. induction P as [|x r IH]; intros n e HP HM; [done|].
  destruct e as [mode mtime c|es|t].
  - pose proof (HM []) as H0. simpl in H0. destruct H0 as (Hk & _).
    simpl. unfold isDir. by rewrite Hk.
  - destruct (Mirror_isDir _ _ HM) as (Hk & Hd & Hl).
    assert (Hdir : isDir n = true) by (unfold isDir; by rewrite Hk).
    assert (Hchild : ∀ z q, mirrorHere (children n !! z ≫= nodeAt q)
                                        (lookupEntry z es ≫= entryAt q)).
    { intros z q. specialize (HM (z :: q)). simpl in HM.
      unfold nodeChild in HM. by rewrite Hdir in HM. }
    simpl removeAt. rewrite Hdir. destruct r as [|y r].
    + intros q. destruct q as [|z q]; [done|].
      simpl. unfold nodeChild at 1. simpl. rewrite lookupEntry_filter.
      destruct (decide (z = x)) as [->|Hz].
      * by rewrite lookup_delete_eq.
      * rewrite lookup_delete_ne by done. apply Hchild.
    + rewrite fsRemove_cons by done. intros q. destruct q as [|z q]; [done|].
      cbn [nodeAt entryAt entryChild]. unfold nodeChild at 1.
      cbn [isDir kind children]. rewrite lookupEntry_map.
      destruct (decide (z = x)) as [->|Hz].
      * rewrite lookup_alter_eq.
        pose proof (Hchild x []) as Hx. simpl in Hx.
        destruct (children n !! x) as [m|] eqn:Hm,
                 (lookupEntry x es) as [c|] eqn:Hc; simpl in *; try done.
        apply IH; [done|]. apply (Mirror_child n m es c x); [done| |done].
        unfold nodeChild. by rewrite Hdir.
      * rewrite lookup_alter_ne by done. apply Hchild.
  - pose proof (HM []) as H0. simpl in H0. destruct H0 as (Hk & _).
    simpl. unfold isDir. by rewrite Hk.
Qed.

(** So does the Delete event that [HandleChange] applies. *)
Lemma Mirror_Delete (cc : CacheContext) (e : Entry) (p : string) (fi : FileInfo) :
  splitPath p ≠ [] → Mirror (tree cc) e →
  Mirror (tree (HandleChange cc ChangeKindDelete p fi)) (fsRemove (splitPath p) e).
Proof. intros Hp HM. simpl. by apply Mirror_removeAt. Qed.

End presenting.



(** *** Calls of [Checksum] on a cache built from events *)

Section asked.

Context {alg : Algorithm}.



End asked.

(** *** A Delete event after a digest has been cached *)

Section invalidation.

Context {alg : Algorithm}.





End invalidation.








(** *** Files *)

Section files.

Context {alg : Algorithm}.


End files.




(** *** Identical trees *)

Section identical_trees.

Context {alg : Algorithm}.


End identical_trees.




(** *** A directory that loses a broken symlink *)

Section feeding.

Context {alg : Algorithm}.



End feeding.

Section removal.

Context {alg : Algorithm}.

(** [V] is the view before and [V'] the view after the child [name] of
    directory [d] has gone; [name] was a symlink that led nowhere. *)
Variables (V V' : View) (d : Path) (name : string) (od od' : Obs).

Hypothesis Hbroken : follow V maxSymlinks (d ++ [name]) = None.
Hypothesis Hbelow : ∀ r, r ≠ [] → V ((d ++ [name]) ++ r) = None.
Hypothesis Hgone : ∀ r, V' ((d ++ [name]) ++ r) = None.
Hypothesis Hother : ∀ q, q ≠ d → ¬ (d ++ [name]) `prefix_of` q → V' q = V q.
Hypothesis Hd : V d = Some od.
Hypothesis Hd' : V' d = Some od'.
Hypothesis Hkind : okind od = Directory.
Hypothesis Hkind' : okind od' = Directory.
Hypothesis Hnames : onames od ≡ₚ name :: onames od'.






End removal.

Section fsRemove.

Context {alg : Algorithm}.







End fsRemove.

#[global] Instance identity_collision_free : CollisionFree identityAlgorithm.
Proof. by intros x y H. Qed.







(** *** Delete events *)


Section delete.

Context {alg : Algorithm}.


End delete.




(** *** Saving and loading the tree *)

Lemma trust_unfold (n : Node) :
  trust n = MkNode (kind n) (digest n) (linkname n) (trust <$> children n) true.
Proof. by destruct n. Qed.

Lemma isDir_trust (n : Node) : isDir (trust n) = isDir n.
Proof. by destruct n. Qed.

Lemma nodeChild_trust (x : string) (n : Node) :
  nodeChild x (trust n) = trust <$> nodeChild x n.
Proof.
  unfold nodeChild. rewrite isDir_trust. destruct (isDir n); [|done].
  rewrite trust_unfold. simpl. apply lookup_fmap.
Qed.


Lemma step_trust (x : string) (l : Loc) :
  step x (trustLoc l) = trustLoc <$> step x l.
Proof.
  destruct l as [[n|] oe]; unfold step, trustLoc; simpl.
  - rewrite nodeChild_trust, isDir_trust.
    destruct (nodeChild x n) as [c|]; simpl; [done|].
    by destruct (if isDir n then _ else _).
  - by destruct (oe ≫= entryChild x).
Qed.

Lemma locate_trust (p : Path) (l : Loc) :
  locate p (trustLoc l) = trustLoc <$> locate p l.
Proof.
  revert l. induction p as [|x r IH]; intros l; [done|].
  simpl. rewrite step_trust. destruct (step x l) as [l'|]; [|done].
  simpl. apply IH.
Qed.

Section persistence.

Context {alg : Algorithm}.

Lemma observe_trust_shape (l : Loc) :
  shape (observe (trustLoc l)) = shape (observe l).
Proof.
  destruct l as [[n|] oe]; [|done]. unfold trustLoc. simpl.
  by rewrite trust_unfold.
Qed.

Lemma observe_trust_digest (l : Loc) (o : Obs) (d : Digest) :
  observe l = Some o → odigest o = Some d →
  ∃ o', observe (trustLoc l) = Some o' ∧ okind o' = okind o ∧ odigest o' = Some d.
Proof.
  destruct l as [[n|] oe]; unfold trustLoc; simpl.
  - intros [= <-]. simpl. intros Hd. rewrite trust_unfold. simpl.
    eexists. split; [done|]. split; [done|]. simpl.
    destruct (kind n); [done| |done].
    by destruct (scanned n).
  - intros Ho Hd. by exists o.
Qed.

(** A context that starts from the saved tree of an earlier one answers
    the path the earlier one was asked with the same digest, whatever fuel
    it is given. *)
Lemma checksumAt_reloaded (cc cc' : CacheContext) (ref : Ref) (p : Path)
    (f f' : nat) (d : Digest) :
  checksumAt f cc ref p = Some (OK d, cc') →
  outcome (checksumAt (S f') (mkCC (trust (tree cc'))) ref p) = Some (OK d).
Proof.
  intros (q & o & Hf & Ho & Hk & ->)%checksumAt_OK_inv.
  rewrite outcome_checksumAt. simpl tree.
  set (n' := store q (okind o) d (Some (tree cc))).
  unfold view in Ho.
  destruct (locate q (rootLoc cc ref)) as [lq|] eqn:Hlq; [|done].
  simpl in Ho.
  destruct (seen_store_shape q (okind o) d (Some (tree cc)) (Some (root ref)) lq o
              Hlq Ho eq_refl Hk) as [Hshape (o' & Ho' & Hk' & Hd')].
  fold n' in Hshape, Ho'.
  assert (Hview : ∀ p, view (mkCC (trust n')) ref p
                       = locate p (Some n', Some (root ref)) ≫= (λ l, observe (trustLoc l))).
  { intros p0. unfold view, rootLoc. simpl tree.
    change (Some (trust n'), Some (root ref))
      with (trustLoc (Some n', Some (root ref))).
    rewrite locate_trust. by destruct (locate p0 _). }
  assert (Hfollow : follow (view (mkCC (trust n')) ref) maxSymlinks p = Some q).
  { rewrite <- Hf. apply follow_shape. intros p0.
    rewrite Hview.
    change (view cc ref p0) with (seen (Some (tree cc), Some (root ref)) p0).
    rewrite <- (Hshape p0). unfold seen.
    destruct (locate p0 (Some n', Some (root ref))) as [l|]; [|done].
    simpl. apply observe_trust_shape. }
  unfold seen in Ho'.
  destruct (locate q (Some n', Some (root ref))) as [l'|] eqn:Hl'; [|done].
  simpl in Ho'.
  destruct (observe_trust_digest l' o' d Ho' Hd') as (o'' & Ho'' & Hk'' & Hd'').
  assert (Hq : view (mkCC (trust n')) ref q = Some o'').
  { by rewrite Hview, Hl'. }
  simpl. unfold digestStep. rewrite Hfollow, Hq, Hd''.
  rewrite Hk'', Hk'. by destruct (okind o).
Qed.

(** C7: when the package-level [Checksum] has returned a digest for a path
    and the tree has been saved, then after a restart of the process (the
    contexts in memory purged, the durable store kept, the filesystem
    unchanged) [Checksum] for that path returns the same digest. *)
Theorem ChecksumRef_after_restart (w w' : World) (ref : Ref) (p : string)
    (f f' : nat) (d : Digest) :
  ChecksumRef f w ref p = Some (OK d, w') →
  ∃ w'', ChecksumRef (S f') (restart w') ref p = Some (OK d, w'').
Proof.
  unfold ChecksumRef at 1.
  destruct (Checksum f (GetCacheContext w ref) ref p) as [[[d0|e] cc']|] eqn:Hrun;
    [|done..].
  intros [= -> <-].
  pose proof (checksumAt_reloaded _ _ _ _ _ f' _ Hrun) as Hagain.
  unfold ChecksumRef, GetCacheContext, restart, newCacheContext, save. simpl.
  rewrite lookup_empty, lookup_insert_eq.
  unfold Checksum, outcome in *.
  destruct (checksumAt (S f') (mkCC (trust (tree cc'))) ref (splitPath p))
    as [[r cc'']|]; [|done].
  injection Hagain as ->. by eexists.
Qed.

End persistence.

(** The steps of [TestPersistence] on the tree of the test: the first
    call computes and saves, the call after the restart answers alike.  For
    the directory [d0] the first call needs fuel for the scan of its
    children; after the restart the least fuel suffices: nothing is
    scanned again. *)
Lemma ChecksumRef_cold :
  @ChecksumRef identityAlgorithm 1 coldWorld basicRef "foo"
  = Some (OK "sha256:data0", warmWorld).
Proof. by vm_compute. Qed.

Lemma ChecksumRef_cold_d0 :
  @ChecksumRef identityAlgorithm 3 coldWorld basicRef "d0"
  = Some (OK "sha256:abcsha256:data0defsha256:data0ghi", warmWorldD0).
Proof. by vm_compute. Qed.

Lemma ChecksumRef_after_restart_witness :
  (∃ w'', @ChecksumRef identityAlgorithm 1 (restart warmWorld) basicRef "foo"
          = Some (OK "sha256:data0", w'')) ∧
  (∃ w'', @ChecksumRef identityAlgorithm 1 (restart warmWorldD0) basicRef "d0"
          = Some (OK "sha256:abcsha256:data0defsha256:data0ghi", w'')).
Proof.
  split.
  - exact (@ChecksumRef_after_restart identityAlgorithm coldWorld warmWorld
             basicRef "foo" 1 0 "sha256:data0" ChecksumRef_cold).
  - exact (@ChecksumRef_after_restart identityAlgorithm coldWorld warmWorldD0
             basicRef "d0" 3 0 "sha256:abcsha256:data0defsha256:data0ghi"
             ChecksumRef_cold_d0).
Defined.

End contenthash_theory.

(** ** More facts about the environment lists *)

Module llb_laws.
Import llb llb_theory.

Local Open Scope Z_scope.

(** *** The loop of [Index] *)

Lemma indexFrom_first (i : Z) (l : list KeyValue) (k : string) :
  match indexFrom i l k with
  | (j, true) =>
      ∃ (n : nat) kv, j = i + Z.of_nat n ∧ l !! n = Some kv ∧ key kv = k ∧
        ∀ (m : nat) kv', (m < n)%nat → l !! m = Some kv' → key kv' ≠ k
  | (j, false) => j = -1 ∧ ∀ kv, kv ∈ l → key kv ≠ k
  end.
Proof.
  revert i. induction l as [|kv r IH]; intros i; simpl.
  - split; [done|]. by intros kv ?%elem_of_nil.
  - destruct (decide (key kv = k)) as [Hk|Hk].
    + exists 0%nat, kv. repeat split; [lia|done|]. intros m kv' Hm. lia.
    + specialize (IH (i + 1)).
      destruct (indexFrom (i + 1) r k) as [j [|]].
      * destruct IH as (n & kv0 & -> & Hn & Hkv & Hbefore).
        exists (S n), kv0. repeat split; [lia|done|done|].
        intros [|m] kv' Hm; simpl.
        -- by intros [= <-].
        -- apply Hbefore. lia.
      * destruct IH as [-> Hnone]. split; [done|].
        intros kv' [->|Hin]%elem_of_cons; [done|by apply Hnone].
Qed.

Lemma indexFrom_head (i : Z) (l : list KeyValue) (k : string) :
  0 ≤ i →
  match indexFrom i l k with
  | (j, true) =>
      i ≤ j ∧ ∃ kv, l !! Z.to_nat (j - i) = Some kv ∧
                    head (filter (λ kv, key kv = k) l) = Some kv
  | (j, false) => head (filter (λ kv, key kv = k) l) = None
  end.
Proof.
  revert i. induction l as [|kv r IH]; intros i Hi; simpl; [done|].
  destruct (decide (key kv = k)) as [Hk|Hk].
  - split; [lia|]. exists kv. rewrite Z.sub_diag. simpl.
    by rewrite filter_cons_True.
  - rewrite filter_cons_False by done.
    specialize (IH (i + 1) ltac:(lia)).
    destruct (indexFrom (i + 1) r k) as [j [|]]; [|done].
    destruct IH as (Hle & kv0 & Hkv0 & Hhead). split; [lia|].
    exists kv0. split; [|done].
    replace (Z.to_nat (j - i)) with (S (Z.to_nat (j - (i + 1)))) by lia.
    done.
Qed.

(** [Index] answers with the position of the first entry for the key, and
    with [(-1, false)] exactly when the list has no entry for it. *)
Theorem Index_first_entry (h : Heap) (e : Slice) (k : string) :
  match Index h e k with
  | (i, true) =>
      ∃ (n : nat) kv, i = Z.of_nat n ∧ read h e !! n = Some kv ∧ key kv = k ∧
        ∀ (m : nat) kv', (m < n)%nat → read h e !! m = Some kv' → key kv' ≠ k
  | (i, false) => i = -1 ∧ ∀ kv, kv ∈ read h e → key kv ≠ k
  end.
Proof.
  unfold Index. pose proof (indexFrom_first 0 (read h e) k) as H.
  destruct (indexFrom 0 (read h e) k) as [j [|]]; [|done].
  destruct H as (n & kv & -> & H). by exists n, kv.
Qed.

Lemma Get_head (h : Heap) (e : Slice) (k : string) :
  Get h e k
  = Some (match head (filter (λ kv, key kv = k) (read h e)) with
          | Some kv => (value kv, true)
          | None => ("", false)
          end).
Proof.
  unfold Get, Index. pose proof (indexFrom_head 0 (read h e) k ltac:(lia)) as H.
  destruct (indexFrom 0 (read h e) k) as [j [|]].
  - destruct H as (Hle & kv & Hkv & ->).
    rewrite decide_True by done. rewrite Z.sub_0_r in Hkv. by rewrite Hkv.
  - by rewrite H.
Qed.

(** [Get] never panics: it answers with the value of the first entry for
    the key, and with the empty string and [false] when there is none. *)
Theorem Get_first_value (h : Heap) (e : Slice) (k : string) :
  Get h e k
  = Some (match head (filter (λ kv, key kv = k) (read h e)) with
          | Some kv => (value kv, true)
          | None => ("", false)
          end).
Proof. apply Get_head. Qed.

Lemma filter_removeFirst_ne (k k' : string) (l : list KeyValue) :
  k' ≠ k →
  filter (λ kv, key kv = k') (removeFirst k l) = filter (λ kv, key kv = k') l.
Proof.
  intros Hne. induction l as [|kv r IH]; simpl; [done|].
  destruct (decide (key kv = k)) as [Hk|Hk].
  - rewrite filter_cons_False; [done|]. congruence.
  - rewrite !filter_cons. by rewrite IH.
Qed.

Lemma wf_frame (h h' : Heap) (e : Slice) :
  wf h e → (∀ a l, h !! a = Some l → h' !! a = Some l) → wf h' e.
Proof.
  unfold wf. intros Hwf Hkeep. destruct (sarr e) as [a|]; [|done].
  destruct Hwf as (l & Hl & H). exists l. split; [by apply Hkeep|done].
Qed.

Lemma read_frame (h h' : Heap) (e : Slice) :
  wf h e → (∀ a l, h !! a = Some l → h' !! a = Some l) → read h' e = read h e.
Proof.
  unfold wf, read. intros Hwf Hkeep. destruct (sarr e) as [a|]; [|done].
  destruct Hwf as (l & Hl & _). by rewrite (Hkeep _ _ Hl), Hl.
Qed.

Section laws.

Variable grow : nat → nat → nat.

(** [Delete] never panics.  When [Index] finds the key at [i], the list it
    returns is the receiver without its entry at [i], one shorter and in the
    same order; otherwise it has the elements of the receiver.  Either way
    it lies in an array that the caller's heap did not have. *)
Theorem Delete_removes_first (h : Heap) (e : Slice) (k : string) :
  wf h e →
  ∃ h' e',
    Delete grow h e k = Some (h', e') ∧ wf h' e' ∧
    match Index h e k with
    | (i, true) =>
        read h' e' = take (Z.to_nat i) (read h e) ++ drop (S (Z.to_nat i)) (read h e) ∧
        S (slen e') = slen e
    | (_, false) => read h' e' = read h e ∧ slen e' = slen e
    end ∧
    ∀ a, sarr e' = Some a → h !! a = None.
Proof.
  intros Hwf.
  destruct (Delete_spec grow h e k Hwf) as (h' & e' & Hrun & Hwf' & Hread & _ & Hfresh).
  exists h', e'. split; [done|]. split; [done|]. split; [|done].
  pose proof (length_read h' e' Hwf') as Hlen'.
  pose proof (length_read h e Hwf) as Hlen.
  unfold Index. destruct (indexFrom 0 (read h e) k) as [i [|]] eqn:Hidx.
  - destruct (indexFrom_hit _ _ _ _ Hidx) as (n & kv & -> & Hn & _ & Hrm).
    replace (Z.to_nat (0 + Z.of_nat n)) with n by lia.
    rewrite Hread, Hrm. split; [done|].
    rewrite <- Hlen', <- Hlen, Hread, Hrm.
    apply lookup_lt_Some in Hn.
    rewrite length_app, length_take, length_drop. lia.
  - destruct (indexFrom_miss _ _ _ _ Hidx) as (_ & Hrm & _).
    rewrite Hread, Hrm. split; [done|].
    by rewrite <- Hlen', <- Hlen, Hread, Hrm.
Qed.

(** After [Delete], [Get] finds no entry for the key of a list that had at
    most one, and answers for every other key what it answered before. *)
Theorem Delete_then_Get (h : Heap) (e : Slice) (k : string) :
  wf h e →
  ∃ h' e',
    Delete grow h e k = Some (h', e') ∧
    ((occurrences k (read h e) ≤ 1)%nat → Get h' e' k = Some ("", false)) ∧
    ∀ k', k' ≠ k → Get h' e' k' = Get h e k'.
Proof.
  intros Hwf.
  destruct (Delete_spec grow h e k Hwf) as (h' & e' & Hrun & _ & Hread & _).
  exists h', e'. split; [done|]. split.
  - intros Hocc. rewrite Get_head, Hread, removeFirst_filter by done.
    pose proof (occurrences_filter_ne k (read h e)) as H0.
    unfold occurrences in H0. apply length_zero_iff_nil in H0. by rewrite H0.
  - intros k' Hne. by rewrite !Get_head, Hread, filter_removeFirst_ne.
Qed.

(** [AddOrReplace] leaves the answers of [Get] for the other keys as they
    were. *)
Theorem AddOrReplace_other_keys (h : Heap) (e : Slice) (k v k' : string) :
  wf h e → k' ≠ k →
  ∃ h' e',
    AddOrReplace grow h e k v = Some (h', e') ∧ Get h' e' k' = Get h e k'.
Proof.
  intros Hwf Hne.
  destruct (AddOrReplace_spec grow h e k v Hwf) as (h' & e' & Hrun & _ & Hread & _).
  exists h', e'. split; [done|].
  rewrite !Get_head, Hread, filter_app, filter_removeFirst_ne by done.
  rewrite filter_cons_False by (simpl; congruence).
  by rewrite filter_nil, app_nil_r.
Qed.

(** Lists with at most one entry per key stay so: [AddOrReplace] and
    [Delete] return well-formed lists with at most one entry per key. *)
Theorem distinct_keys_kept (h : Heap) (e : Slice) (k v : string) :
  wf h e → (∀ k', occurrences k' (read h e) ≤ 1)%nat →
  (∃ h' e', AddOrReplace grow h e k v = Some (h', e') ∧ wf h' e' ∧
            ∀ k', (occurrences k' (read h' e') ≤ 1)%nat) ∧
  (∃ h' e', Delete grow h e k = Some (h', e') ∧ wf h' e' ∧
            ∀ k', (occurrences k' (read h' e') ≤ 1)%nat).
Proof.
  intros Hwf Huniq. split.
  - destruct (AddOrReplace_spec grow h e k v Hwf) as (h' & e' & Hrun & Hwf' & Hread & _).
    exists h', e'. split; [done|]. split; [done|]. rewrite Hread.
    by apply AddOrReplace_keeps_unique.
  - destruct (Delete_spec grow h e k Hwf) as (h' & e' & Hrun & Hwf' & Hread & _).
    exists h', e'. split; [done|]. split; [done|]. rewrite Hread.
    intros k'. pose proof (occurrences_removeFirst k k' (read h e)).
    pose proof (Huniq k'). lia.
Qed.

(** The last write wins: setting a key twice leaves the list that setting
    it once to the second value leaves, and [Get] answers with the second
    value. *)
Theorem AddOrReplace_twice (h : Heap) (e : Slice) (k v1 v2 : string) :
  wf h e → (occurrences k (read h e) ≤ 1)%nat →
  ∃ h1 e1 h2 e2,
    AddOrReplace grow h e k v1 = Some (h1, e1) ∧
    AddOrReplace grow h1 e1 k v2 = Some (h2, e2) ∧
    read h2 e2 = filter (λ kv, key kv ≠ k) (read h e) ++ [mkKV k v2] ∧
    Get h2 e2 k = Some (v2, true) ∧
    read h2 e1 = filter (λ kv, key kv ≠ k) (read h e) ++ [mkKV k v1].
Proof.
  intros Hwf Hocc.
  destruct (AddOrReplace_spec grow h e k v1 Hwf)
    as (h1 & e1 & Hrun1 & Hwf1 & Hread1 & Hkeep1).
  destruct (AddOrReplace_spec grow h1 e1 k v2 Hwf1)
    as (h2 & e2 & Hrun2 & Hwf2 & Hread2 & Hkeep2).
  rewrite removeFirst_filter in Hread1 by done.
  pose proof (occurrences_filter_ne k (read h e)) as H0.
  assert (Hocc1 : (occurrences k (read h1 e1) ≤ 1)%nat).
  { rewrite Hread1. unfold occurrences in *. rewrite filter_app, length_app, H0.
    by rewrite filter_cons_True. }
  rewrite removeFirst_filter in Hread2 by done.
  assert (Hread2' : read h2 e2
                    = filter (λ kv, key kv ≠ k) (read h e) ++ [mkKV k v2]).
  { rewrite Hread2, Hread1, filter_app. f_equal.
    rewrite filter_cons_False by (by intros ?). rewrite filter_nil, app_nil_r.
    rewrite list_filter_filter. apply list_filter_iff. tauto. }
  exists h1, e1, h2, e2. split; [done|]. split; [done|]. split; [done|]. split.
  - by eapply Get_last.
  - by rewrite (read_frame h1 h2 e1 Hwf1 Hkeep2).
Qed.

(** Lists derived from one list do not share memory: setting a key on the
    list [e] a second time leaves the list that the first call returned, and
    [e] itself, reading as before. *)
Theorem AddOrReplace_independent (h h1 : Heap) (e e1 : Slice) (k1 v1 k2 v2 : string) :
  wf h e → AddOrReplace grow h e k1 v1 = Some (h1, e1) →
  ∃ h2 e2,
    AddOrReplace grow h1 e k2 v2 = Some (h2, e2) ∧
    read h2 e1 = read h1 e1 ∧
    read h2 e = read h e ∧
    read h2 e2 = removeFirst k2 (read h e) ++ [mkKV k2 v2].
Proof.
  intros Hwf Hrun1.
  destruct (AddOrReplace_spec grow h e k1 v1 Hwf)
    as (h1' & e1' & Hrun1' & Hwf1 & Hread1 & Hkeep1).
  rewrite Hrun1 in Hrun1'. injection Hrun1' as <- <-.
  pose proof (wf_frame h h1 e Hwf Hkeep1) as Hwfe.
  pose proof (read_frame h h1 e Hwf Hkeep1) as Hreade.
  destruct (AddOrReplace_spec grow h1 e k2 v2 Hwfe)
    as (h2 & e2 & Hrun2 & Hwf2 & Hread2 & Hkeep2).
  exists h2, e2. split; [done|]. split; [by apply read_frame|]. split.
  - by rewrite (read_frame h1 h2 e Hwfe Hkeep2).
  - by rewrite Hread2, Hreade.
Qed.

End laws.

(** *** [ToArray] *)

(** Every string of [ToArray] is read back, at its first ['='], as the
    key and the value of its entry, provided the key holds no ['=']. *)
Theorem ToArray_splitEnv (h : Heap) (e : Slice) :
  (∀ kv, kv ∈ read h e → "="%char ∉ list_ascii_of_string (key kv)) →
  map splitEnv (ToArray h e) = map (λ kv, Some (key kv, value kv)) (read h e).
Proof.
  intros Hkeys. unfold ToArray. rewrite map_map. apply map_ext_in.
  intros kv Hin%list_elem_of_In. specialize (Hkeys kv Hin).
  destruct kv as [k v]. simpl in *. clear Hin.
  unfold splitEnv. induction k as [|c k IH].
  - reflexivity.
  - change (list_ascii_of_string (String c k))
      with (c :: list_ascii_of_string k) in Hkeys.
    rewrite not_elem_of_cons in Hkeys. destruct Hkeys as [Hc Hk].
    change (splitAt "=" (String c k +:+ "=" +:+ v))
      with (if decide (c = "="%char) then Some ("", k +:+ "=" +:+ v)
            else (λ '(a, b), (String c a, b)) <$> splitAt "=" (k +:+ "=" +:+ v)).
    rewrite decide_False by done. by rewrite (IH Hk).
Qed.

(** *** The laws on [PATH=/bin, HOME=/root] *)

Lemma read_pathList :
  read pathHeap pathList = [mkKV "PATH" "/bin"; mkKV "HOME" "/root"].
Proof. by vm_compute. Qed.

Lemma distinct_pathList (k : string) :
  (occurrences k (read pathHeap pathList) ≤ 1)%nat.
Proof.
  rewrite read_pathList. unfold occurrences. rewrite !filter_cons, filter_nil.
  simpl. destruct (decide ("PATH" = k)) as [<-|?]; [by vm_compute|].
  destruct (decide ("HOME" = k)); simpl; lia.
Qed.

Lemma Delete_removes_first_witness :
  ∃ h' e', Delete exactFit pathHeap pathList "PATH" = Some (h', e') ∧
           read h' e' = [mkKV "HOME" "/root"] ∧ slen e' = 1%nat.
Proof.
  destruct (Delete_removes_first exactFit pathHeap pathList "PATH" wf_pathList)
    as (h' & e' & Hrun & _ & Hidx & _).
  exists h', e'. split; [done|].
  change (Index pathHeap pathList "PATH") with (0, true) in Hidx.
  destruct Hidx as [Hread Hlen]. split.
  - rewrite Hread. reflexivity.
  - simpl in Hlen. lia.
Defined.

Lemma Delete_then_Get_witness :
  ∃ h' e', Delete exactFit pathHeap pathList "PATH" = Some (h', e') ∧
           Get h' e' "PATH" = Some ("", false) ∧
           Get h' e' "HOME" = Some ("/root", true).
Proof.
  destruct (Delete_then_Get exactFit pathHeap pathList "PATH" wf_pathList)
    as (h' & e' & Hrun & Hgone & Hother).
  exists h', e'. split; [done|]. split.
  - apply Hgone, distinct_pathList.
  - rewrite (Hother "HOME") by done. reflexivity.
Defined.

Lemma AddOrReplace_other_keys_witness :
  ∃ h' e', AddOrReplace exactFit pathHeap pathList "PATH" "/usr/bin" = Some (h', e') ∧
           Get h' e' "HOME" = Some ("/root", true).
Proof.
  destruct (AddOrReplace_other_keys exactFit pathHeap pathList "PATH" "/usr/bin"
              "HOME" wf_pathList)
    as (h' & e' & Hrun & Hget); [done|].
  exists h', e'. split; [done|]. rewrite Hget. reflexivity.
Defined.

Lemma distinct_keys_kept_witness :
  (∃ h' e', AddOrReplace exactFit pathHeap pathList "TERM" "xterm" = Some (h', e') ∧
            wf h' e' ∧ ∀ k', (occurrences k' (read h' e') ≤ 1)%nat) ∧
  (∃ h' e', Delete exactFit pathHeap pathList "TERM" = Some (h', e') ∧
            wf h' e' ∧ ∀ k', (occurrences k' (read h' e') ≤ 1)%nat).
Proof.
  exact (distinct_keys_kept exactFit pathHeap pathList "TERM" "xterm"
           wf_pathList distinct_pathList).
Defined.

Lemma AddOrReplace_twice_witness :
  ∃ h1 e1 h2 e2,
    AddOrReplace exactFit pathHeap pathList "PATH" "/usr/bin" = Some (h1, e1) ∧
    AddOrReplace exactFit h1 e1 "PATH" "/opt/bin" = Some (h2, e2) ∧
    read h2 e2 = [mkKV "HOME" "/root"; mkKV "PATH" "/opt/bin"] ∧
    Get h2 e2 "PATH" = Some ("/opt/bin", true) ∧
    read h2 e1 = [mkKV "HOME" "/root"; mkKV "PATH" "/usr/bin"].
Proof.
  destruct (AddOrReplace_twice exactFit pathHeap pathList "PATH" "/usr/bin" "/opt/bin"
              wf_pathList (distinct_pathList "PATH"))
    as (h1 & e1 & h2 & e2 & Hrun1 & Hrun2 & Hread2 & Hget & Hread1).
  exists h1, e1, h2, e2. split; [done|]. split; [done|].
  rewrite Hread2, Hread1. repeat split; done.
Defined.

Lemma AddOrReplace_pathList :
  AddOrReplace exactFit pathHeap pathList "PATH" "/usr/bin"
  = Some (pathHeap1, pathList1).
Proof. by vm_compute. Qed.

Lemma AddOrReplace_independent_witness :
  ∃ h2 e2,
    AddOrReplace exactFit pathHeap1 pathList "HOME" "/home/me" = Some (h2, e2) ∧
    read h2 pathList1 = [mkKV "HOME" "/root"; mkKV "PATH" "/usr/bin"] ∧
    read h2 pathList = [mkKV "PATH" "/bin"; mkKV "HOME" "/root"] ∧
    read h2 e2 = [mkKV "PATH" "/bin"; mkKV "HOME" "/home/me"].
Proof.
  destruct (AddOrReplace_independent exactFit pathHeap pathHeap1 pathList pathList1
              "PATH" "/usr/bin" "HOME" "/home/me" wf_pathList AddOrReplace_pathList)
    as (h2 & e2 & Hrun & Hread1 & Hread & Hread2).
  exists h2, e2. split; [done|].
  rewrite Hread1, Hread, Hread2. repeat split; by vm_compute.
Defined.

Lemma ToArray_splitEnv_witness :
  map splitEnv (ToArray pathHeap pathList)
  = [Some ("PATH", "/bin"); Some ("HOME", "/root")].
Proof.
  rewrite (ToArray_splitEnv pathHeap pathList); [reflexivity|].
  intros kv. rewrite read_pathList.
  intros [->|[->|?%elem_of_nil]%elem_of_cons]%elem_of_cons; [| |done];
    by apply (bool_decide_unpack _).
Defined.

End llb_laws.

(** ** More facts about the router *)

Module router_laws.
Import router router_theory.

Local Open Scope Z_scope.

(** *** The function name *)

Lemma prefix_empty (s : string) : String.prefix "" s = true.
Proof. by destruct s. Qed.

Lemma indexFrom_dot (i : Z) (c : ascii) (host : string) :
  indexFrom i (String c host) "."
  = if decide (c = "."%char) then i else indexFrom (i + 1) host ".".
Proof.
  change (indexFrom i (String c host) ".") with
    (if (if ascii_dec "." c then String.prefix "" host else false)
     then i else indexFrom (i + 1) host ".").
  destruct (ascii_dec "." c) as [<-|Hc].
  - by rewrite prefix_empty, decide_True.
  - rewrite decide_False; [done|]. by intros ->.
Qed.

Lemma indexFrom_firstLabel (i : Z) (host : string) :
  ¬ dotless host →
  indexFrom i host "." = i + Z.of_nat (String.length (firstLabel host)).
Proof.
  unfold dotless. revert i. induction host as [|c host IH]; intros i Hdot.
  - exfalso. apply Hdot. by intros ?%elem_of_nil.
  - rewrite indexFrom_dot. simpl firstLabel.
    destruct (decide (c = "."%char)) as [->|Hc]; [simpl; lia|].
    rewrite IH.
    + simpl String.length. lia.
    + intros Hno. apply Hdot.
      change (list_ascii_of_string (String c host))
        with (c :: list_ascii_of_string host).
      rewrite not_elem_of_cons. split; [congruence|done].
Qed.

Lemma substring_firstLabel (host : string) :
  String.substring 0 (String.length (firstLabel host)) host = firstLabel host.
Proof.
  induction host as [|c host IH]; [done|]. simpl.
  destruct (decide (c = "."%char)); [done|]. simpl. by rewrite IH.
Qed.

Lemma length_firstLabel (host : string) :
  (String.length (firstLabel host) ≤ String.length host)%nat.
Proof.
  induction host as [|c host IH]; [done|]. simpl.
  destruct (decide (c = "."%char)); simpl; lia.
Qed.

Lemma slice_firstLabel (host : string) :
  ¬ dotless host → slice host 0 (Index host ".") = Some (firstLabel host).
Proof.
  intros Hdot. unfold Index. rewrite indexFrom_firstLabel by done.
  unfold slice. pose proof (length_firstLabel host).
  rewrite decide_True by lia.
  replace (Z.to_nat (0 + Z.of_nat (String.length (firstLabel host)) - 0))
    with (String.length (firstLabel host)) by lia.
  simpl Z.to_nat. by rewrite substring_firstLabel.
Qed.

(** The function name that [r.Host[0:strings.Index(r.Host, ".")]] cuts
    from a host name with a dot is its first label: it holds no dot, and the
    host name is the label, a dot and the rest. *)
Theorem Host_first_label (host : string) :
  ¬ dotless host →
  slice host 0 (Index host ".") = Some (firstLabel host) ∧
  dotless (firstLabel host) ∧
  ∃ rest, host = firstLabel host +:+ "." +:+ rest.
Proof.
  intros Hdot. split; [|split].
  - by apply slice_firstLabel.
  - clear Hdot. unfold dotless. induction host as [|c host IH]; simpl.
    + by intros ?%elem_of_nil.
    + destruct (decide (c = "."%char)) as [->|Hc].
      * by intros ?%elem_of_nil.
      * change (list_ascii_of_string (String c (firstLabel host)))
          with (c :: list_ascii_of_string (firstLabel host)).
        rewrite not_elem_of_cons. split; [congruence|done].
  - unfold dotless in Hdot. induction host as [|c host IH].
    + exfalso. apply Hdot. by intros ?%elem_of_nil.
    + simpl. destruct (decide (c = "."%char)) as [->|Hc].
      * by exists host.
      * destruct IH as [rest Hrest].
        -- intros Hno. apply Hdot.
           change (list_ascii_of_string (String c host))
             with (c :: list_ascii_of_string host).
           rewrite not_elem_of_cons. split; [congruence|done].
        -- exists rest. rewrite Hrest at 1. reflexivity.
Qed.

Lemma slice_trimSlash (uri : string) :
  (if HasPrefix uri "/"
   then slice uri 1 (Z.of_nat (String.length uri))
   else Some uri) = Some (trimSlash uri).
Proof.
  unfold HasPrefix. destruct uri as [|c rest]; [done|].
  change (String.prefix "/" (String c rest))
    with (if ascii_dec "/" c then String.prefix "" rest else false).
  unfold trimSlash. destruct (ascii_dec "/" c) as [<-|Hc].
  - rewrite prefix_empty, decide_True by done.
    unfold slice. rewrite decide_True by (simpl String.length; lia).
    replace (Z.to_nat (Z.of_nat (String.length (String "/" rest)) - 1))
      with (String.length rest) by (simpl String.length; lia).
    simpl. f_equal. clear. induction rest as [|c rest IH]; [done|].
    simpl. by rewrite IH.
  - rewrite decide_False; [done|]. by intros ->.
Qed.

Lemma Host_not_empty (host : string) :
  ¬ dotless host → String.length host ≠ 0%nat.
Proof.
  intros Hdot Hlen. destruct host; [|done]. apply Hdot.
  by intros ?%elem_of_nil.
Qed.

Section handler.

Variable newRequestOk : string → string → bool.
Variable Do : string → string → Header → option string → Response + string.

(** The handler up to its call of [http.NewRequest], on a host name with
    a dot: nothing has been written, and the path is ready. *)
Lemma makeHandler_path (upstreamURL : string) (w : ResponseWriter) (r : Request) :
  ¬ dotless (Host r) →
  makeHandler newRequestOk Do upstreamURL w r
  = let path := proxyPath upstreamURL r in
    let out := ["Proxying to:  " +:+ path] in
    if negb (newRequestOk (Method r) path)
    then Panicked NilPointerDereference w out
    else
      match Do (Method r) path (ReqHeader r) (Body r) with
      | inr resErr =>
          Returned (Write resErr (WriteHeader StatusServiceUnavailable w))
                   (out ++ ["Upstream " +:+ path +:+ " status: "
                             +:+ pretty StatusBadGateway])
      | inl res =>
          let w := mkWriter (status w) (copyHeaders (header w) (ResHeader res))
                            (written w) in
          let out := out ++ ["Upstream " +:+ path +:+ " status: "
                              +:+ pretty (StatusCode res)] in
          let w := WriteHeader (StatusCode res) w in
          match ResBody res with
          | Some bytesOut => Returned (Write bytesOut w) out
          | None => Returned w out
          end
      end.
Proof.
  intros Hdot. unfold makeHandler.
  rewrite decide_False by (by apply Host_not_empty).
  rewrite slice_trimSlash.
  rewrite (slice_firstLabel (Host r) Hdot).
  unfold proxyPath, copyHeaders. by rewrite (right_id_L ∅ (∪)).
Qed.

(** With an upstream whose answer carries a status code that
    [w.WriteHeader] accepts (100 to 999), the handler returns a response
    exactly when the host name has a dot and [http.NewRequest] accepts the
    method and the URL; otherwise it panics. *)
Theorem makeHandler_returns_iff (upstreamURL : string) (w : ResponseWriter)
    (r : Request) :
  (∀ res, Do (Method r) (proxyPath upstreamURL r) (ReqHeader r) (Body r) = inl res →
          100 ≤ StatusCode res ≤ 999) →
  (∃ w' out, makeHandler newRequestOk Do upstreamURL w r = Returned w' out) ↔
  ¬ dotless (Host r) ∧
  newRequestOk (Method r) (proxyPath upstreamURL r) = true.
Proof.
  intros _. split.
  - intros (w' & out & Hrun).
    destruct (decide (dotless (Host r))) as [Hno|Hdot].
    + exfalso. revert Hrun. unfold makeHandler.
      assert (Hidx : Index (Host r) "." = -1) by (by apply indexFrom_dotless).
      rewrite Hidx, slice_negative.
      by destruct (if HasPrefix _ _ then _ else _).
    + split; [done|]. rewrite makeHandler_path in Hrun by done. simpl in Hrun.
      by destruct (newRequestOk (Method r) (proxyPath upstreamURL r)).
  - intros [Hdot Hok]. rewrite makeHandler_path by done. simpl. rewrite Hok.
    simpl. destruct (Do _ _ _ _) as [res|err]; [|by eexists _, _].
    destruct (ResBody res); by eexists _, _.
Qed.

(** The error of [http.NewRequest] is dropped: when it rejects the method
    or the URL, the handler dereferences the nil request and panics, with
    nothing written to the client. *)
Theorem makeHandler_nil_request (upstreamURL : string) (w : ResponseWriter)
    (r : Request) :
  ¬ dotless (Host r) →
  newRequestOk (Method r) (proxyPath upstreamURL r) = false →
  makeHandler newRequestOk Do upstreamURL w r
  = Panicked NilPointerDereference w
      ["Proxying to:  " +:+ proxyPath upstreamURL r].
Proof.
  intros Hdot Hbad. rewrite makeHandler_path by done. simpl. by rewrite Hbad.
Qed.

(** A request for a host name with a dot is passed on with its method, its
    headers and its body to the function named by the first label, and the
    client gets the status, the body and the headers of the upstream
    answer; a header the writer held under another name stays.  The status
    of the answer is a final one that allows a body: 200 to 999, and
    neither 204 nor 304. *)
Theorem makeHandler_proxies (upstreamURL : string) (w : ResponseWriter)
    (r : Request) (res : Response) :
  ¬ dotless (Host r) → status w = None →
  newRequestOk (Method r) (proxyPath upstreamURL r) = true →
  Do (Method r) (proxyPath upstreamURL r) (ReqHeader r) (Body r) = inl res →
  200 ≤ StatusCode res ≤ 999 → StatusCode res ≠ 204 → StatusCode res ≠ 304 →
  ∃ w',
    makeHandler newRequestOk Do upstreamURL w r
    = Returned w'
        ["Proxying to:  " +:+ proxyPath upstreamURL r;
         "Upstream " +:+ proxyPath upstreamURL r +:+ " status: "
           +:+ pretty (StatusCode res)] ∧
    status w' = Some (StatusCode res) ∧
    written w' = written w +:+ default "" (ResBody res) ∧
    ∀ k, header w' !! k = match ResHeader res !! k with
                          | Some v => Some v
                          | None => header w !! k
                          end.
Proof.
  intros Hdot Hfresh Hok Hdo _ _ _. rewrite makeHandler_path by done. simpl.
  rewrite Hok, Hdo. simpl.
  assert (Hlookup : ∀ k, (ResHeader res ∪ header w) !! k
                         = match ResHeader res !! k with
                           | Some v => Some v
                           | None => header w !! k
                           end).
  { intros k. rewrite lookup_union.
    destruct (ResHeader res !! k), (header w !! k); done. }
  assert (Happ : ∀ s, s +:+ "" = s).
  { intros s. induction s as [|c s' IH]; [done|].
    change (String c (s' +:+ "") = String c s'). by rewrite IH. }
  unfold WriteHeader, Write, copyHeaders. simpl. rewrite Hfresh.
  destruct (ResBody res) as [body|]; eexists; (split; [reflexivity|]); simpl.
  - by repeat split.
  - rewrite Happ. by repeat split.
Qed.

(** When the upstream cannot be reached the client gets the status 503
    with the text of the error, while the log line names the status 502. *)
Theorem makeHandler_upstream_error (upstreamURL : string) (w : ResponseWriter)
    (r : Request) (resErr : string) :
  ¬ dotless (Host r) → status w = None →
  newRequestOk (Method r) (proxyPath upstreamURL r) = true →
  Do (Method r) (proxyPath upstreamURL r) (ReqHeader r) (Body r) = inr resErr →
  makeHandler newRequestOk Do upstreamURL w r
  = Returned (mkWriter (Some 503) (header w) (written w +:+ resErr))
      ["Proxying to:  " +:+ proxyPath upstreamURL r;
       "Upstream " +:+ proxyPath upstreamURL r +:+ " status: 502"].
Proof.
  intros Hdot Hfresh Hok Hdo. rewrite makeHandler_path by done. simpl.
  rewrite Hok, Hdo. simpl.
  unfold WriteHeader, Write. simpl. by rewrite Hfresh.
Qed.

End handler.

(** *** The configuration that [main] reads *)

Lemma substring_drop (s1 s2 : string) :
  String.substring (String.length s1) (String.length s2) (s1 +:+ s2) = s2.
Proof.
  induction s1 as [|c s1 IH].
  - change ("" +:+ s2) with s2. simpl String.length.
    induction s2 as [|c s2 IH]; [done|]. simpl. by rewrite IH.
  - change (String c s1 +:+ s2) with (String c (s1 +:+ s2)). simpl. exact IH.
Qed.

Lemma HasSuffix_append (s suffix : string) : HasSuffix (s +:+ suffix) suffix = true.
Proof.
  unfold HasSuffix. rewrite contenthash_theory.length_append.
  rewrite bool_decide_true by lia.
  replace (String.length s + String.length suffix - String.length suffix)%nat
    with (String.length s) by lia.
  by rewrite substring_drop, bool_decide_true.
Qed.

(** [main] panics exactly when [upstream_url] is not set or is empty. *)
Theorem main_panics_iff (LookupEnv : string → option string) :
  (∃ msg, main LookupEnv = LogPanic msg) ↔
  (LookupEnv "upstream_url" = None ∨ LookupEnv "upstream_url" = Some "").
Proof.
  unfold main. destruct (LookupEnv "upstream_url") as [up|].
  - destruct (decide (0 < String.length up)%nat) as [Hlen|Hlen].
    + assert (Hne : String.length (if negb (HasSuffix up "/") then up +:+ "/" else up)
                    ≠ 0%nat).
      { destruct (negb _); [rewrite contenthash_theory.length_append|]; lia. }
      rewrite decide_False by done. split.
      * by intros [msg ?].
      * intros [?|[= ->]]; [done|]. simpl in Hlen. lia.
    + rewrite decide_True by done. split; [|by eexists].
      intros _. right. destruct up; [done|]. simpl in Hlen. lia.
  - rewrite decide_True by done. split; [by left|by eexists].
Qed.

(** When [main] serves, the upstream URL of the handler ends with a slash:
    it is the value of [upstream_url], with a slash added when it had
    none.  The address is the colon and the value of [port], or 8080 when
    [port] is not set or empty. *)
Theorem main_serves (LookupEnv : string → option string) (s : Server) :
  main LookupEnv = ListenAndServe s →
  HasSuffix (handlerUpstream s) "/" = true ∧
  (∃ up, LookupEnv "upstream_url" = Some up ∧ up ≠ "" ∧
         handlerUpstream s = if HasSuffix up "/" then up else up +:+ "/") ∧
  Addr s = ":" +:+ match LookupEnv "port" with
                   | Some "" | None => "8080"
                   | Some p => p
                   end.
Proof.
  unfold main. destruct (LookupEnv "upstream_url") as [up|]; [|done].
  destruct (decide (0 < String.length up)%nat) as [Hlen|Hlen]; [|done].
  destruct (decide (String.length _ = 0%nat)); [done|].
  intros [= <-]. simpl. split; [|split].
  - destruct (HasSuffix up "/") eqn:Hs; simpl; [done|apply HasSuffix_append].
  - exists up. split; [done|]. split; [intros ->; simpl in Hlen; lia|].
    by destruct (HasSuffix up "/").
  - destruct (LookupEnv "port") as [[|c p]|]; done.
Qed.

(** *** The laws on a request for [hello.example.com] *)

Lemma hello_has_dot : ¬ dotless (Host helloRequest).
Proof. intros H. apply H. by apply (bool_decide_unpack _). Qed.

Lemma Host_first_label_witness :
  slice "hello.example.com:8080" 0 (Index "hello.example.com:8080" ".")
    = Some "hello" ∧
  dotless "hello" ∧
  ∃ rest, "hello.example.com:8080" = "hello" +:+ "." +:+ rest.
Proof. exact (Host_first_label "hello.example.com:8080" hello_has_dot). Defined.

Lemma makeHandler_returns_iff_witness :
  (∃ w' out,
     makeHandler acceptAll upstreamHello "http://gateway:8080/" newWriter
       helloRequest = Returned w' out) ↔
  ¬ dotless (Host helloRequest) ∧
  acceptAll (Method helloRequest) (proxyPath "http://gateway:8080/" helloRequest)
  = true.
Proof.
  apply (makeHandler_returns_iff acceptAll upstreamHello "http://gateway:8080/"
           newWriter helloRequest).
  intros res [= <-]. simpl. lia.
Defined.

Lemma makeHandler_nil_request_witness :
  makeHandler (λ _ _, false) upstreamHello "http://gateway:8080/" newWriter
    helloRequest
  = Panicked NilPointerDereference newWriter
      ["Proxying to:  http://gateway:8080/function/hello-v1/run?x=1"].
Proof.
  exact (makeHandler_nil_request (λ _ _, false) upstreamHello
           "http://gateway:8080/" newWriter helloRequest hello_has_dot eq_refl).
Defined.

Lemma makeHandler_proxies_witness :
  ∃ w',
    makeHandler acceptAll upstreamHello "http://gateway:8080/" newWriter helloRequest
    = Returned w'
        ["Proxying to:  http://gateway:8080/function/hello-v1/run?x=1";
         "Upstream http://gateway:8080/function/hello-v1/run?x=1 status: 200"] ∧
    status w' = Some 200 ∧
    written w' = "hello" ∧
    ∀ k, header w' !! k
         = match ({[ "Content-Type" := ["text/plain"] ]} : Header) !! k with
           | Some v => Some v
           | None => (∅ : Header) !! k
           end.
Proof.
  exact (makeHandler_proxies acceptAll upstreamHello "http://gateway:8080/"
           newWriter helloRequest
           (mkResponse 200 {[ "Content-Type" := ["text/plain"] ]} (Some "hello"))
           hello_has_dot eq_refl eq_refl eq_refl
           ltac:(simpl; lia) ltac:(simpl; lia) ltac:(simpl; lia)).
Defined.

Lemma makeHandler_upstream_error_witness :
  makeHandler acceptAll upstreamDown "http://gateway:8080/" newWriter helloRequest
  = Returned (mkWriter (Some 503) ∅ "connection refused")
      ["Proxying to:  http://gateway:8080/function/hello-v1/run?x=1";
       "Upstream http://gateway:8080/function/hello-v1/run?x=1 status: 502"].
Proof.
  exact (makeHandler_upstream_error acceptAll upstreamDown "http://gateway:8080/"
           newWriter helloRequest "connection refused"
           hello_has_dot eq_refl eq_refl eq_refl).
Defined.

Lemma main_serves_witness :
  HasSuffix "http://gateway:8080/" "/" = true ∧
  (∃ up, gatewayEnv "upstream_url" = Some up ∧ up ≠ "" ∧
         "http://gateway:8080/" = if HasSuffix up "/" then up else up +:+ "/") ∧
  ":8080" = ":" +:+ match gatewayEnv "port" with
                    | Some "" | None => "8080"
                    | Some p => p
                    end.
Proof.
  exact (main_serves gatewayEnv
           (mkServer ":8080" "http://gateway:8080/" (60 * Second) (60 * Second)
                     (Z.shiftl 1 20)) eq_refl).
Defined.

End router_laws.

(** ** More facts about the helpers of the contenthash tests *)

Module helpers_laws.
Import contenthash contenthash_theory.

(** *** Lines of a change stream *)



Lemma append_not_nil (s1 s2 : string) : s2 ≠ "" → s1 +:+ s2 ≠ "".
Proof. intros Hne. destruct s1; [done|]. discriminate. Qed.








(** *** [emit] *)

(** [emit] hands the changes to the callback in their order and stops at
    the first error: a stream in two parts is the first part and then, if
    that went without an error, the second. *)
Theorem emit_app {alg : Algorithm} {S : Type}
    (fn : ChangeKind → string → FileInfo → S → string + S)
    (a b : list change) (s : S) :
  emit fn (a ++ b) s
  = match emit fn a s with
    | (None, s') => emit fn b s'
    | (Some err, s') => (Some err, s')
    end.
Proof.
  revert s. induction a as [|c a IH]; intros s; [done|].
  simpl. destruct (fn _ _ _ s) as [err|s']; [done|]. apply IH.
Qed.

(** *** [writeChanges] *)






(** *** The laws on lines of the tests *)






End helpers_laws.
